(** * devdonalds: the cookbook engine of [devdonalds.ts]

    A shallow embedding of the three request handlers of
    [src/backend/ts_template/devdonalds.ts] and of the helper
    [isReachable], followed by the properties of the catalog they
    maintain.

    Conventions of the embedding.
    - A JavaScript [number] is an integer of [Z]: every request of the
      development uses integral cook times and quantities.
    - The global [cookbook] is a [gmap string cookbookEntry]: the source
      only calls [has], [get] and [set] on it, never iterates it.
    - The two local [Map]s whose iteration order is observable
      ([requiredItemsMap], [ingredients]) are insertion-ordered
      association lists, see [OMap].
    - The two [while] loops take a loop budget [fuel]; running out of it
      is the completion [OutOfFuel], which no JavaScript run has. *)

From Stdlib Require Import ZArith String Ascii List Lia.
From stdpp Require Import base option list relations strings gmap fin_maps fin_sets.

Set Default Proof Using "Type".
Set Warnings "-register-all,-clear-no-such-hyp".


(** ** JavaScript values of a parsed JSON body *)

Inductive jsval : Type :=
| JUndefined
| JNull
| JBool (b : bool)
| JNum (n : Z)
| JStr (s : string)
| JArr (elems : list jsval)
| JObj (props : list (string * jsval)).

(** The own property [k] of a parsed object; keys are distinct after
    parsing, so the first binding is the binding. *)
Fixpoint own_prop (k : string) (props : list (string * jsval)) : jsval :=
  match props with
  | [] => JUndefined
  | (k', v) :: rest => if String.eqb k k' then v else own_prop k rest
  end.

(** [v.k] for one of the keys the handlers read ([type], [name],
    [cookTime], [requiredItems], [quantity]): [None] is the [TypeError] of
    reading a property of [undefined] or [null]; primitives and arrays
    have none of these keys. *)
Definition prop (v : jsval) (k : string) : option jsval :=
  match v with
  | JUndefined | JNull => None
  | JObj props => Some (own_prop k props)
  | JBool _ | JNum _ | JStr _ | JArr _ => Some JUndefined
  end.

(** [!!v] *)
Definition truthy (v : jsval) : bool :=
  match v with
  | JUndefined | JNull => false
  | JBool b => b
  | JNum n => negb (n =? 0)%Z
  | JStr s => negb (String.eqb s "")
  | JArr _ | JObj _ => true
  end.

(** [[s1, .., sn].includes(v)] for an array of string literals *)
Definition includes (literals : list string) (v : jsval) : bool :=
  match v with
  | JStr s => existsb (String.eqb s) literals
  | _ => false
  end.

(** [v === "s"] *)
Definition is_string (v : jsval) (s : string) : bool :=
  match v with
  | JStr s' => String.eqb s' s
  | _ => false
  end.

(** [o || d] where [o] is a [number] or [undefined] *)
Definition or_default (o : option Z) (d : Z) : Z :=
  match o with
  | Some v => if (v =? 0)%Z then d else v
  | None => d
  end.

(** ** Insertion-ordered maps: the JavaScript [Map] where order shows *)

Module OMap.
Section omap.
Context {V : Type}.

Definition t : Type := list (string * V).

Definition empty : t := [].

Fixpoint get (k : string) (m : t) : option V :=
  match m with
  | [] => None
  | (k', v) :: m' => if bool_decide (k = k') then Some v else get k m'
  end.

(** [m.set(k, v)]: a key already present keeps its place. *)
Fixpoint set (k : string) (v : V) (m : t) : t :=
  match m with
  | [] => [(k, v)]
  | (k', v') :: m' =>
      if bool_decide (k = k') then (k, v) :: m' else (k', v') :: set k v m'
  end.

Fixpoint delete (k : string) (m : t) : t :=
  match m with
  | [] => []
  | (k', v') :: m' =>
      if bool_decide (k = k') then delete k m' else (k', v') :: delete k m'
  end.

Definition keys (m : t) : list string := m.*1.
Definition values (m : t) : list V := m.*2.
Definition entries (m : t) : list (string * V) := m.
End omap.
Arguments t : clear implicits.
End OMap.

(** ** The data model (the interfaces at the top of the source) *)

Record requiredItem : Type := RequiredItem {
  item_name : string;
  quantity : Z
}.

Record recipe : Type := Recipe {
  recipe_name : string;
  requiredItems : list requiredItem
}.

Record ingredient : Type := Ingredient {
  ingredient_name : string;
  cookTime : Z
}.

(** [recipe | ingredient]; the [type] field is the constructor. *)
Inductive cookbookEntry : Type :=
| IsRecipe (r : recipe)
| IsIngredient (i : ingredient).

Abbreviation Cookbook := (gmap string cookbookEntry).

Record summary : Type := Summary {
  summary_name : string;
  summary_cookTime : Z;
  summary_ingredients : list requiredItem
}.

(** ** Replies and completions *)

(** One constructor per [res.status(400).send(..)] of the source. *)
Inductive rejection : Type :=
| InvalidType                          (* line 67 *)
| DuplicateName                        (* line 73: "entry names must be unique" *)
| InvalidCookTime                      (* line 81 *)
| InvalidRequiredItems                 (* line 92 *)
| InvalidRequiredItemName (n : jsval)  (* line 102 *)
| CycleDetected (n : string)           (* line 108 *)
| InvalidQuantity (n : string)         (* line 112 *)
| NotFound                             (* line 174 *)
| NotARecipe                           (* line 180 *)
| MissingRecipe (n : string)           (* line 194 *)
| DanglingReference (n : string).      (* line 208 *)

Inductive reply : Type :=
| Status200
| Status200Json (s : summary)
| Status400 (why : rejection).

(** Where an uncaught [TypeError] is raised. *)
Inductive fault : Type :=
| BodyIsNullish          (* [data.type] *)
| RequiredItemIsNullish  (* [requiredItem.name] *)
| SrcNotInCookbook       (* [item.type] in [isReachable] *)
| ItemIsUndefined.       (* [item.type] at line 179 *)

Inductive completion (A : Type) : Type :=
| Normal (a : A)
| Responded (r : reply)
| Thrown (f : fault)
| OutOfFuel.
Arguments Normal {A} a.
Arguments Responded {A} r.
Arguments Thrown {A} f.
Arguments OutOfFuel {A}.

(** Code of a handler: it reads and writes the global [cookbook]. *)
Definition handler (A : Type) : Type := Cookbook → completion A * Cookbook.

Definition pure {A} (a : A) : handler A := λ cookbook, (Normal a, cookbook).

Definition andThen {A B} (m : handler A) (k : A → handler B) : handler B :=
  λ cookbook,
    match m cookbook with
    | (Normal a, cookbook') => k a cookbook'
    | (Responded r, cookbook') => (Responded r, cookbook')
    | (Thrown f, cookbook') => (Thrown f, cookbook')
    | (OutOfFuel, cookbook') => (OutOfFuel, cookbook')
    end.

Notation "x ← m ; k" := (andThen m (λ x, k))
  (at level 20, m at level 100, k at level 200, only parsing).
Notation "m ;; k" := (andThen m (λ _, k))
  (at level 100, k at level 200, right associativity, only parsing).

(** [return res.status(..).send(..)] *)
Definition respond {A} (r : reply) : handler A := λ cookbook, (Responded r, cookbook).
Definition throw {A} (f : fault) : handler A := λ cookbook, (Thrown f, cookbook).
Definition cookbook_has (k : string) : handler bool :=
  λ cookbook, (Normal (bool_decide (is_Some (cookbook !! k))), cookbook).
Definition cookbook_get (k : string) : handler (option cookbookEntry) :=
  λ cookbook, (Normal (cookbook !! k), cookbook).
Definition cookbook_set (k : string) (e : cookbookEntry) : handler unit :=
  λ cookbook, (Normal tt, <[k := e]> cookbook).
(** A call of a function that only reads the cookbook. *)
Definition call {A} (f : Cookbook → completion A) : handler A :=
  λ cookbook, (f cookbook, cookbook).
(** [v.k] inside a handler *)
Definition read_prop (v : jsval) (k : string) (f : fault) : handler jsval :=
  match prop v k with
  | Some x => pure x
  | None => throw f
  end.

(** ** [isReachable] (lines 139-166) *)

(** The [for] loop of lines 154-163 over the required items of the popped
    recipe: [None] is [return true], [Some stack] the stack after the
    pushes. The head of the list is the top of the stack. *)
Fixpoint isReachable_for (cookbook : Cookbook) (dest : string)
    (items : list requiredItem) (stack : list recipe) : option (list recipe) :=
  match items with
  | [] => Some stack
  | requiredItem :: rest =>
      if bool_decide (item_name requiredItem = dest) then None
      else
        match cookbook !! item_name requiredItem with
        | Some (IsRecipe nextItem) =>
            isReachable_for cookbook dest rest (nextItem :: stack)
        | _ => isReachable_for cookbook dest rest stack
        end
  end.

(** The [while] loop of lines 150-164. *)
Fixpoint isReachable_while (fuel : nat) (cookbook : Cookbook) (dest : string)
    (stack : list recipe) : completion bool :=
  match fuel with
  | O => OutOfFuel
  | S fuel' =>
      match stack with
      | [] => Normal false
      | currentItem :: stack' =>
          match isReachable_for cookbook dest (requiredItems currentItem) stack' with
          | None => Normal true
          | Some stack'' => isReachable_while fuel' cookbook dest stack''
          end
      end
  end.

Definition isReachable (fuel : nat) (src dest : string) (cookbook : Cookbook)
    : completion bool :=
  match cookbook !! src with
  | None => Thrown SrcNotInCookbook
  | Some (IsIngredient _) => Normal false
  | Some (IsRecipe item) => isReachable_while fuel cookbook dest [item]
  end.

(** ** [POST /entry] (lines 61-128) *)

(** The [for] loop of lines 97-117. *)
Fixpoint entry_for (fuel : nat) (entryName : string) (requiredItems : list jsval)
    (requiredItemsMap : OMap.t requiredItem) : handler (OMap.t requiredItem) :=
  match requiredItems with
  | [] => pure requiredItemsMap
  | requiredItem :: rest =>
      requiredItemName ← read_prop requiredItem "name" RequiredItemIsNullish;
      quantity ← read_prop requiredItem "quantity" RequiredItemIsNullish;
      match requiredItemName with
      | JStr n =>
          if bool_decide (n = "") || bool_decide (n = entryName)
          then respond (Status400 (InvalidRequiredItemName requiredItemName))
          else
            present ← cookbook_has n;
            cyclic ← (if present : bool then call (isReachable fuel n entryName)
                      else pure false);
            if cyclic : bool then respond (Status400 (CycleDetected n))
            else
              match quantity with
              | JNum q =>
                  if (q <=? 0)%Z then respond (Status400 (InvalidQuantity n))
                  else entry_for fuel entryName rest
                         (OMap.set n (RequiredItem n q) requiredItemsMap)
              | _ => respond (Status400 (InvalidQuantity n))
              end
      | _ => respond (Status400 (InvalidRequiredItemName requiredItemName))
      end
  end.

Definition AddEntry (fuel : nat) (data : jsval) : handler Empty_set :=
  entryType ← read_prop data "type" BodyIsNullish;
  if negb (truthy entryType) || negb (includes ["recipe"; "ingredient"] entryType)
  then respond (Status400 InvalidType)
  else
    entryName ← read_prop data "name" BodyIsNullish;
    match entryName with
    | JStr entryName =>
        taken ← cookbook_has entryName;
        if bool_decide (entryName = "") || taken
        then respond (Status400 DuplicateName)
        else if is_string entryType "ingredient" then
          cookTime ← read_prop data "cookTime" BodyIsNullish;
          match cookTime with
          | JNum c =>
              if (c <? 0)%Z then respond (Status400 InvalidCookTime)
              else
                cookbook_set entryName (IsIngredient (Ingredient entryName c));;
                respond Status200
          | _ => respond (Status400 InvalidCookTime)
          end
        else
          requiredItems ← read_prop data "requiredItems" BodyIsNullish;
          match requiredItems with
          | JArr [] => respond (Status400 InvalidRequiredItems)
          | JArr requiredItems =>
              requiredItemsMap ← entry_for fuel entryName requiredItems OMap.empty;
              cookbook_set entryName
                (IsRecipe (Recipe entryName (OMap.values requiredItemsMap)));;
              respond Status200
          | _ => respond (Status400 InvalidRequiredItems)
          end
    | _ => respond (Status400 DuplicateName)
    end.

(** ** [GET /summary] (lines 170-242) *)

(** The [for] loop of lines 203-217. *)
Fixpoint summary_for (recipeName : string) (items : list requiredItem)
    (recipes : list string) (ingredients : OMap.t Z)
    : handler (list string * OMap.t Z) :=
  match items with
  | [] => pure (recipes, ingredients)
  | requiredItem :: rest =>
      let requiredItemName := item_name requiredItem in
      present ← cookbook_has requiredItemName;
      if negb present
      then respond (Status400 (DanglingReference requiredItemName))
      else
        let recipes := requiredItemName :: recipes in
        let existingQuantity := or_default (OMap.get requiredItemName ingredients) 0 in
        let ingredients :=
          OMap.set requiredItemName
            (existingQuantity
             + quantity requiredItem * or_default (OMap.get recipeName ingredients) 1)%Z
            ingredients in
        summary_for recipeName rest recipes ingredients
  end.

(** The [while] loop of lines 189-221; the head of [recipes] is the top of
    the stack. *)
Fixpoint summary_while (fuel : nat) (recipes : list string)
    (ingredients : OMap.t Z) : handler (OMap.t Z) :=
  match fuel with
  | O => λ cookbook, (OutOfFuel, cookbook)
  | S fuel' =>
      match recipes with
      | [] => pure ingredients
      | recipeName :: recipes' =>
          recipe ← cookbook_get recipeName;
          match recipe with
          | None => respond (Status400 (MissingRecipe recipeName))
          | Some (IsIngredient _) => summary_while fuel' recipes' ingredients
          | Some (IsRecipe r) =>
              pushed ← summary_for recipeName (requiredItems r) recipes' ingredients;
              summary_while fuel' pushed.1 (OMap.delete recipeName pushed.2)
          end
      end
  end.

(** The [for] loop of lines 227-233: [total] is the running [cookTime],
    and [push] appends. *)
Fixpoint summary_tally (cookbook : Cookbook) (entries : list (string * Z))
    (total : Z) (summaryIngredients : list requiredItem)
    : Z * list requiredItem :=
  match entries with
  | [] => (total, summaryIngredients)
  | (ingredientName, ingredientQuantity) :: rest =>
      match cookbook !! ingredientName with
      | Some (IsIngredient ingredient) =>
          summary_tally cookbook rest
            (total + ingredientQuantity * cookTime ingredient)%Z
            (summaryIngredients ++ [RequiredItem ingredientName ingredientQuantity])
      | _ => summary_tally cookbook rest total summaryIngredients
      end
  end.

(** The query value [name] is a string here: a value of another type is
    not a key of the cookbook and ends at line 174 as the empty string
    does. *)
Definition Summarize (fuel : nat) (name : string) : handler Empty_set :=
  present ← cookbook_has name;
  if bool_decide (name = "") || negb present
  then respond (Status400 NotFound)
  else
    item ← cookbook_get name;
    match item with
    | Some (IsRecipe _) =>
        ingredients ← summary_while fuel [name] (OMap.set name 1%Z OMap.empty);
        tally ← call (λ cookbook,
                   Normal (summary_tally cookbook (OMap.entries ingredients) 0%Z []));
        respond (Status200Json (Summary name tally.1 tally.2))
    | Some (IsIngredient _) => respond (Status400 NotARecipe)
    | None => throw ItemIsUndefined
    end.

(** ** [parse_handwriting] (lines 48-56)

    Strings are strings of bytes. A character outside ASCII is neither a
    separator nor a letter, so the second [replace] removes it whatever
    its encoding; from there on the string holds ASCII letters and spaces
    only, which is where [toLowerCase], [trim] and [\b] are modelled. *)

Definition in_range (lo hi : nat) (c : ascii) : bool :=
  (lo <=? nat_of_ascii c) && (nat_of_ascii c <=? hi).

Definition is_upper : ascii → bool := in_range 65 90.
Definition is_lower : ascii → bool := in_range 97 122.
Definition is_digit : ascii → bool := in_range 48 57.
Definition is_letter (c : ascii) : bool := is_upper c || is_lower c.

(** The class [[-_ ]] *)
Definition is_separator (c : ascii) : bool :=
  bool_decide (c = "-"%char) || bool_decide (c = "_"%char) || bool_decide (c = " "%char).

(** The class [[^a-zA-Z ]] *)
Definition is_not_letter_or_space (c : ascii) : bool :=
  negb (is_letter c || bool_decide (c = " "%char)).

(** The class [\w] *)
Definition is_word_char (c : ascii) : bool :=
  is_letter c || is_digit c || bool_decide (c = "_"%char).

Definition is_whitespace (c : ascii) : bool :=
  in_range 9 13 c || bool_decide (c = " "%char).

Definition lower_char (c : ascii) : ascii :=
  if is_upper c then ascii_of_nat (nat_of_ascii c + 32) else c.
Definition upper_char (c : ascii) : ascii :=
  if is_lower c then ascii_of_nat (nat_of_ascii c - 32) else c.

(** [s.replace(/[class]+/g, by)]: each maximal run of characters of the
    class becomes one [by]; [in_run] tells that the previous character
    was of the class. *)
Fixpoint replace_runs (class : ascii → bool) (by_ : string) (in_run : bool)
    (s : string) : string :=
  match s with
  | EmptyString => EmptyString
  | String c rest =>
      if class c then
        if in_run then replace_runs class by_ true rest
        else by_ +:+ replace_runs class by_ true rest
      else String c (replace_runs class by_ false rest)
  end.

Fixpoint toLowerCase (s : string) : string :=
  match s with
  | EmptyString => EmptyString
  | String c rest => String (lower_char c) (toLowerCase rest)
  end.

Fixpoint trimStart (s : string) : string :=
  match s with
  | EmptyString => EmptyString
  | String c rest => if is_whitespace c then trimStart rest else s
  end.

Fixpoint trimEnd (s : string) : string :=
  match s with
  | EmptyString => EmptyString
  | String c rest =>
      match trimEnd rest with
      | EmptyString => if is_whitespace c then EmptyString else String c EmptyString
      | rest' => String c rest'
      end
  end.

Definition trim (s : string) : string := trimEnd (trimStart s).

(** [s.replace(/\b[A-Za-z]/g, char => char.toUpperCase())]: a letter is
    matched when no word character precedes it; [after_word] tells that
    the previous character was a word character. *)
Fixpoint capitalize (after_word : bool) (s : string) : string :=
  match s with
  | EmptyString => EmptyString
  | String c rest =>
      String (if negb after_word && is_letter c then upper_char c else c)
             (capitalize (is_word_char c) rest)
  end.

Definition parse_handwriting (recipeName : string) : option string :=
  let result := replace_runs is_separator " " false recipeName in
  let result := toLowerCase (replace_runs is_not_letter_or_space "" false result) in
  match trim result with
  | EmptyString => None
  | trimmed => Some (capitalize false trimmed)
  end.

(** ** The requirement graph and the catalogs the handlers build *)

(** An edge of the graph: the present recipe [a] lists [b]. *)
Definition requires (cookbook : Cookbook) (a b : string) : Prop :=
  ∃ r, cookbook !! a = Some (IsRecipe r) ∧ b ∈ item_name <$> requiredItems r.

Definition acyclic (cookbook : Cookbook) : Prop :=
  ∀ a, ¬ tc (requires cookbook) a a.

(** The states of the cookbook: empty at start-up, then changed by
    [POST /entry] requests answered with status 200. *)
Inductive reachable : Cookbook → Prop :=
| reachable_empty : reachable ∅
| reachable_AddEntry cookbook fuel data cookbook' :
    reachable cookbook →
    AddEntry fuel data cookbook = (Responded Status200, cookbook') →
    reachable cookbook'.

(** The guard of line 107 for the required name [n]. *)
Definition cycle_check (fuel : nat) (entryName n : string) (cookbook : Cookbook)
    : completion bool :=
  if bool_decide (is_Some (cookbook !! n)) then isReachable fuel n entryName cookbook
  else Normal false.

Definition found_cycle (c : completion bool) : bool :=
  match c with
  | Normal true => true
  | _ => false
  end.

(** ** Well-formed entries and their request bodies *)

Definition entry_name (e : cookbookEntry) : string :=
  match e with
  | IsRecipe r => recipe_name r
  | IsIngredient i => ingredient_name i
  end.

Definition entry_items (e : cookbookEntry) : list requiredItem :=
  match e with
  | IsRecipe r => requiredItems r
  | IsIngredient _ => []
  end.

Definition item_body (it : requiredItem) : jsval :=
  JObj [("name", JStr (item_name it)); ("quantity", JNum (quantity it))].

Definition body (e : cookbookEntry) : jsval :=
  match e with
  | IsIngredient i =>
      JObj [("type", JStr "ingredient"); ("name", JStr (ingredient_name i));
            ("cookTime", JNum (cookTime i))]
  | IsRecipe r =>
      JObj [("type", JStr "recipe"); ("name", JStr (recipe_name r));
            ("requiredItems", JArr (item_body <$> requiredItems r))]
  end.

Definition well_formed_item (entryName : string) (it : requiredItem) : Prop :=
  item_name it ≠ "" ∧ item_name it ≠ entryName ∧ (0 < quantity it)%Z.

Definition well_formed (e : cookbookEntry) : Prop :=
  entry_name e ≠ "" ∧
  match e with
  | IsIngredient i => (0 ≤ cookTime i)%Z
  | IsRecipe r =>
      requiredItems r ≠ [] ∧ Forall (well_formed_item (recipe_name r)) (requiredItems r)
  end.

(** What [requiredItemsMap] holds after the loop of lines 97-117 went
    through [items]. *)
Definition collected (items : list requiredItem) (m : OMap.t requiredItem)
    : OMap.t requiredItem :=
  foldl (λ m it, OMap.set (item_name it) (RequiredItem (item_name it) (quantity it)) m)
        m items.

(** The entry that line 86 or line 126 stores for a well-formed entry. *)
Definition stored (e : cookbookEntry) : cookbookEntry :=
  match e with
  | IsIngredient i => IsIngredient i
  | IsRecipe r =>
      IsRecipe (Recipe (recipe_name r) (OMap.values (collected (requiredItems r) OMap.empty)))
  end.

(** The quantity of the last item of [items] named [n]. *)
Definition last_quantity (n : string) (items : list requiredItem) : option Z :=
  quantity <$> last (filter (λ it, item_name it = n) items).

(** ** The summary as the specification words it

    The accumulated quantity of [leaf] under [root]: quantities are
    multiplied along each requirement chain from [root] to [leaf] and the
    chains are summed. [depth] bounds the length of the chains. *)
Fixpoint spec_quantity (depth : nat) (cookbook : Cookbook) (root leaf : string) : Z :=
  match depth with
  | O => 0
  | S depth' =>
      match cookbook !! root with
      | Some (IsRecipe r) =>
          foldr (λ it acc,
                   (quantity it
                    * ((if bool_decide (item_name it = leaf) then 1 else 0)
                       + spec_quantity depth' cookbook (item_name it) leaf)
                    + acc)%Z)
                0%Z (requiredItems r)
      | _ => 0%Z
      end
  end.

(** The leaves with their accumulated quantities, and the cost. *)
Definition spec_leafQuantities (depth : nat) (cookbook : Cookbook) (root : string)
    : gmap string Z :=
  map_imap (λ n e,
              match e with
              | IsIngredient _ =>
                  let q := spec_quantity depth cookbook root n in
                  if (q =? 0)%Z then None else Some q
              | IsRecipe _ => None
              end) cookbook.

Definition spec_cost (depth : nat) (cookbook : Cookbook) (root : string) : Z :=
  map_fold (λ n q acc,
              match cookbook !! n with
              | Some (IsIngredient i) => (q * cookTime i + acc)%Z
              | _ => acc
              end) 0%Z (spec_leafQuantities depth cookbook root).

(** ** Sample catalogs *)

Definition leaf_L : cookbookEntry := IsIngredient (Ingredient "L" 10).
Definition recipe_S : cookbookEntry := IsRecipe (Recipe "S" [RequiredItem "L" 1]).
Definition recipe_A : cookbookEntry := IsRecipe (Recipe "A" [RequiredItem "S" 1]).
Definition recipe_R : cookbookEntry :=
  IsRecipe (Recipe "R" [RequiredItem "S" 3; RequiredItem "A" 2]).

(** [R] needs three [S] and two [A]; [A] needs one [S]; [S] needs one [L]. *)
Definition shared_catalog : Cookbook :=
  <["R" := recipe_R]> (<["A" := recipe_A]> (<["S" := recipe_S]> (<["L" := leaf_L]> ∅))).

(** [X] inserted before the [Y] it requires. *)
Definition recipe_X : cookbookEntry := IsRecipe (Recipe "X" [RequiredItem "Y" 2]).
Definition recipe_Y : cookbookEntry := IsRecipe (Recipe "Y" [RequiredItem "X" 1]).
Definition forward_catalog : Cookbook := <["X" := recipe_X]> ∅.

(** The diamond: [D] needs two [A] and three [B], each of which needs one
    [L]. *)
Definition recipe_A1 : cookbookEntry := IsRecipe (Recipe "A" [RequiredItem "L" 1]).
Definition recipe_B1 : cookbookEntry := IsRecipe (Recipe "B" [RequiredItem "L" 1]).
Definition recipe_D : cookbookEntry :=
  IsRecipe (Recipe "D" [RequiredItem "A" 2; RequiredItem "B" 3]).
Definition diamond_catalog : Cookbook :=
  <["D" := recipe_D]> (<["B" := recipe_B1]> (<["A" := recipe_A1]> (<["L" := leaf_L]> ∅))).

(** A request that names [Y] three times. *)
Definition recipe_W : recipe :=
  Recipe "W" [RequiredItem "Y" 1; RequiredItem "Y" 4; RequiredItem "Z" 2; RequiredItem "Y" 7].

(** The recipes that the loop of lines 154-163 pushes for [items]. *)
Definition child_recipes (cookbook : Cookbook) (items : list requiredItem) : list recipe :=
  omap (λ it, match cookbook !! item_name it with
              | Some (IsRecipe r) => Some r
              | _ => None
              end) items.

(** ** Predicates on handlers and on [requiredItemsMap] *)

(** The handler leaves the cookbook as it found it. *)
Definition readonly {A} (m : handler A) : Prop :=
  ∀ cookbook, (m cookbook).2 = cookbook.

(** Either the answer is status 200 or the cookbook is as before. *)
Definition atomic {A} (m : handler A) : Prop :=
  ∀ cookbook, (m cookbook).1 = Responded Status200 ∨ (m cookbook).2 = cookbook.

(** Every value of [requiredItemsMap] carries its key as its name. *)
Definition keyed (m : OMap.t requiredItem) : Prop :=
  Forall (λ p, item_name p.2 = p.1) m.

(** ** Shapes of strings, to state what [parse_handwriting] returns *)

Fixpoint string_forall (p : ascii → bool) (s : string) : bool :=
  match s with
  | EmptyString => true
  | String c rest => p c && string_forall p rest
  end.

Fixpoint string_filter (p : ascii → bool) (s : string) : string :=
  match s with
  | EmptyString => EmptyString
  | String c rest => if p c then String c (string_filter p rest) else string_filter p rest
  end.

Definition is_space (c : ascii) : bool := bool_decide (c = " "%char).

Definition is_letter_or_space (c : ascii) : bool := is_letter c || is_space c.

(** The letters of a string, in order. *)
Definition letters (s : string) : string := string_filter is_letter s.

Definition first_char (s : string) : option ascii :=
  match s with
  | EmptyString => None
  | String c _ => Some c
  end.

Fixpoint last_char (s : string) : option ascii :=
  match s with
  | EmptyString => None
  | String c rest =>
      match last_char rest with
      | None => Some c
      | Some d => Some d
      end
  end.

(** Every letter that follows a letter is lower case and every other
    letter is upper case; [after_letter] tells that the previous character
    was a letter. *)
Fixpoint title_cased (after_letter : bool) (s : string) : bool :=
  match s with
  | EmptyString => true
  | String c rest =>
      (if is_letter c then (if after_letter then is_lower c else is_upper c) else true)
      && title_cased (is_letter c) rest
  end.

(** No two spaces in a row; [after_space] tells that the previous
    character was a space. *)
Fixpoint single_spaced (after_space : bool) (s : string) : bool :=
  match s with
  | EmptyString => true
  | String c rest => negb (after_space && is_space c) && single_spaced (is_space c) rest
  end.

(** ** [POST /parse] (lines 33-44) *)

Inductive parse_reply : Type :=
| ParseOk (msg : string)   (* [res.json({ msg })] *)
| ParseCooked              (* status 400, "this string is cooked" *)
| ParseThrew.              (* an uncaught [TypeError] *)

(** [const { input } = req.body] throws on a nullish body, and
    [recipeName.replace] is not a function unless [input] is a string. *)
Definition Parse (body : jsval) : parse_reply :=
  match prop body "input" with
  | None => ParseThrew
  | Some (JStr input) =>
      match parse_handwriting input with
      | None => ParseCooked
      | Some parsed_string => ParseOk parsed_string
      end
  | Some _ => ParseThrew
  end.

(** The string that [trim] and [capitalize] receive in
    [parse_handwriting]. *)
Definition normalized (recipeName : string) : string :=
  toLowerCase
    (replace_runs is_not_letter_or_space "" false
       (replace_runs is_separator " " false recipeName)).

Definition is_lower_or_space (c : ascii) : bool := is_lower c || is_space c.

Definition is_letter_or_separator (c : ascii) : bool := is_letter c || is_separator c.

(** ** Valid entries and valid request bodies *)

(** What holds of the entry stored under the key [k]. *)
Definition valid_entry (k : string) (e : cookbookEntry) : Prop :=
  entry_name e = k ∧ well_formed e ∧ NoDup (item_name <$> entry_items e).

(** The required item that the loop of lines 97-117 reads from an element
    of [requiredItems], when its fields have the types the loop asks for. *)
Definition item_of (item : jsval) : option requiredItem :=
  match prop item "name", prop item "quantity" with
  | Some (JStr n), Some (JNum q) => Some (RequiredItem n q)
  | _, _ => None
  end.

Definition valid_item (entryName : string) (item : jsval) : Prop :=
  ∃ it, item_of item = Some it ∧ well_formed_item entryName it.

(** The field checks of lines 66-113, which do not depend on the
    cookbook. *)
Definition valid_body (data : jsval) : Prop :=
  ∃ entryName,
    prop data "name" = Some (JStr entryName) ∧ entryName ≠ "" ∧
    ((prop data "type" = Some (JStr "ingredient") ∧
      ∃ c, prop data "cookTime" = Some (JNum c) ∧ (0 ≤ c)%Z) ∨
     (prop data "type" = Some (JStr "recipe") ∧
      ∃ raw, prop data "requiredItems" = Some (JArr raw) ∧ raw ≠ [] ∧
             Forall (valid_item entryName) raw)).


(** The name and the required items that [POST /entry] reads from its
    body, when they have the types it asks for. *)
Definition body_name (data : jsval) : string :=
  match prop data "name" with
  | Some (JStr entryName) => entryName
  | _ => ""
  end.

Definition body_items (data : jsval) : list jsval :=
  match prop data "requiredItems" with
  | Some (JArr requiredItems) => requiredItems
  | _ => []
  end.

(** ** What a summary is made of *)

Definition is_ingredient (cookbook : Cookbook) (n : string) : Prop :=
  ∃ i, cookbook !! n = Some (IsIngredient i).

Definition cook_time_of (cookbook : Cookbook) (n : string) : Z :=
  match cookbook !! n with
  | Some (IsIngredient i) => cookTime i
  | _ => 0%Z
  end.

(** The cook time of a list of ingredients with their quantities. *)
Definition total_time (cookbook : Cookbook) (items : list requiredItem) : Z :=
  foldr (λ it acc, (quantity it * cook_time_of cookbook (item_name it) + acc)%Z) 0%Z items.

(** The entries of [ingredients] that the loop of lines 227-233 reports. *)
Definition reported (cookbook : Cookbook) (entries : list (string * Z))
    : list requiredItem :=
  omap (λ p, match cookbook !! p.1 with
             | Some (IsIngredient _) => Some (RequiredItem p.1 p.2)
             | _ => None
             end) entries.


(** ** Recipes without shared sub-recipes *)

Definition is_recipe_name (cookbook : Cookbook) (n : string) : bool :=
  match cookbook !! n with
  | Some (IsRecipe _) => true
  | _ => false
  end.

(** Every requirement chain from [n] passes through at most [d] recipes,
    [n] included. *)
Fixpoint within (d : nat) (cookbook : Cookbook) (n : string) : bool :=
  match cookbook !! n with
  | Some (IsRecipe r) =>
      match d with
      | O => false
      | S d' => forallb (λ it, within d' cookbook (item_name it)) (requiredItems r)
      end
  | _ => true
  end.

(** The recipes below [n], once for every requirement chain that leads to
    them; [d] bounds the length of the chains. *)
Fixpoint sub_recipes (d : nat) (cookbook : Cookbook) (n : string) : list string :=
  match d with
  | O => []
  | S d' =>
      match cookbook !! n with
      | Some (IsRecipe r) =>
          requiredItems r ≫=
            (λ it, if is_recipe_name cookbook (item_name it)
                   then item_name it :: sub_recipes d' cookbook (item_name it)
                   else [])
      | _ => []
      end
  end.


Definition Zsum {A} (f : A → Z) (l : list A) : Z :=
  foldr (λ x acc, (f x + acc)%Z) 0%Z l.

(** The quantities of the items of [items] named [k], added up. *)
Definition quantity_sum (k : string) (items : list requiredItem) : Z :=
  Zsum (λ it, if bool_decide (item_name it = k) then quantity it else 0%Z) items.

(** The names that the loop of lines 189-221 pops from the stack while it
    works off the stack entry [n]. *)
Definition block (d : nat) (cookbook : Cookbook) (n : string) : list string :=
  if is_recipe_name cookbook n then n :: sub_recipes d cookbook n else [].



(** * Properties *)

(** ** Handlers that leave the cookbook alone *)

Section readonly.
Context {A B : Type}.

Lemma readonly_pure (a : A) : readonly (pure a).
Proof. done. Qed.

Lemma readonly_respond r : readonly (@respond A r).
Proof. done. Qed.

Lemma readonly_throw f : readonly (@throw A f).
Proof. done. Qed.

Lemma readonly_call (f : Cookbook → completion A) : readonly (call f).
Proof. done. Qed.

Lemma readonly_andThen (m : handler A) (k : A → handler B) :
  readonly m → (∀ a, readonly (k a)) → readonly (andThen m k).
Proof.
  intros Hm Hk cookbook. unfold andThen.
  specialize (Hm cookbook). destruct (m cookbook) as [[a|r|f|] cookbook']; simpl in *; subst; try done.
  apply Hk.
Qed.

Lemma readonly_atomic (m : handler A) : readonly m → atomic m.
Proof. intros Hm cookbook. right. apply Hm. Qed.

Lemma atomic_andThen (m : handler A) (k : A → handler B) :
  readonly m → (∀ a, atomic (k a)) → atomic (andThen m k).
Proof.
  intros Hm Hk cookbook. unfold andThen.
  specialize (Hm cookbook). destruct (m cookbook) as [[a|r|f|] cookbook']; simpl in *; subst; auto.
  apply Hk.
Qed.
End readonly.

Lemma readonly_cookbook_has k : readonly (cookbook_has k).
Proof. done. Qed.

Lemma readonly_cookbook_get k : readonly (cookbook_get k).
Proof. done. Qed.

Lemma readonly_read_prop v k f : readonly (read_prop v k f).
Proof. unfold read_prop. by destruct (prop v k). Qed.

Lemma atomic_set_then_200 k e :
  atomic (A := Empty_set) (andThen (cookbook_set k e) (λ _, respond Status200)).
Proof. intros cookbook. by left. Qed.

Create HintDb readonly discriminated.
#[export] Hint Resolve readonly_pure readonly_respond readonly_throw readonly_call
  readonly_cookbook_has readonly_cookbook_get readonly_read_prop : readonly.

Ltac readonly_steps :=
  repeat first
    [ progress auto with readonly
    | apply readonly_andThen; [|intros ?]
    | case_match ].

Lemma readonly_entry_for fuel entryName requiredItems requiredItemsMap :
  readonly (entry_for fuel entryName requiredItems requiredItemsMap).
Proof.
  revert requiredItemsMap.
  induction requiredItems as [|requiredItem rest IH]; intros requiredItemsMap; simpl.
  - auto with readonly.
  - readonly_steps.
Qed.

Lemma readonly_summary_for recipeName items recipes ingredients :
  readonly (summary_for recipeName items recipes ingredients).
Proof.
  revert recipes ingredients.
  induction items as [|requiredItem rest IH]; intros recipes ingredients; simpl.
  - auto with readonly.
  - readonly_steps.
Qed.

Lemma readonly_summary_while fuel recipes ingredients :
  readonly (summary_while fuel recipes ingredients).
Proof.
  revert recipes ingredients.
  induction fuel as [|fuel IH]; intros recipes ingredients; simpl; [done|].
  destruct recipes as [|recipeName recipes']; [auto with readonly|].
  pose proof readonly_summary_for.
  readonly_steps.
Qed.

Lemma readonly_Summarize fuel name : readonly (Summarize fuel name).
Proof.
  unfold Summarize. pose proof readonly_summary_while. readonly_steps.
Qed.

Lemma atomic_AddEntry fuel data : atomic (AddEntry fuel data).
Proof.
  unfold AddEntry.
  pose proof readonly_entry_for.
  repeat first
    [ apply atomic_set_then_200
    | apply readonly_atomic; solve [auto with readonly]
    | apply atomic_andThen; [solve [auto with readonly]|intros ?]
    | case_match ].
Qed.

(** C4. A request that is not answered with status 200 leaves the cookbook
    as it was: [POST /entry] inserts nothing when it fails, whatever the
    body and the failure (a 400 reply, an uncaught [TypeError] or a loop
    that does not end), and [GET /summary] never writes the cookbook. *)
Theorem failure_leaves_cookbook_unchanged :
  (∀ fuel data cookbook,
      (AddEntry fuel data cookbook).1 ≠ Responded Status200 →
      (AddEntry fuel data cookbook).2 = cookbook) ∧
  (∀ fuel name cookbook, (Summarize fuel name cookbook).2 = cookbook).
Proof.
  split.
  - intros fuel data cookbook Hfail.
    by destruct (atomic_AddEntry fuel data cookbook).
  - intros fuel name cookbook. apply readonly_Summarize.
Qed.

(** ** The requirement graph *)

Lemma tc_first_step {A} (R : relation A) x z :
  tc R x z → ∃ y, R x y ∧ rtc R y z.
Proof. destruct 1; eauto using rtc_refl, tc_rtc. Qed.

Section graph.
Context (cookbook : Cookbook).
Implicit Types a b n : string.

Lemma requires_present a b : requires cookbook a b → is_Some (cookbook !! a).
Proof. intros (r & Hr & _). by rewrite Hr. Qed.

Lemma tc_requires_present a b : tc (requires cookbook) a b → is_Some (cookbook !! a).
Proof. destruct 1; eauto using requires_present. Qed.

Lemma rtc_requires_absent a b :
  cookbook !! a = None → rtc (requires cookbook) a b → a = b.
Proof.
  intros Ha Hab. destruct Hab as [|a c b Hac _]; [done|].
  apply requires_present in Hac. rewrite Ha in Hac. by destruct Hac.
Qed.

(** In a finite graph without cycles every descent along the edges
    ends: [X] collects the nodes already above [a]. *)
Lemma acyclic_Acc_below (X : gset string) k a :
  acyclic cookbook →
  size (dom cookbook ∖ X) ≤ k →
  (∀ x, x ∈ X → tc (requires cookbook) x a) →
  Acc (flip (requires cookbook)) a.
Proof.
  intros Hacyclic. revert X a.
  induction k as [|k IH]; intros X a Hsize Habove; constructor; intros b Hab;
    unfold flip in Hab.
  all: assert (a ∈ dom cookbook ∖ X) as Ha
    by (apply elem_of_difference; split;
        [apply elem_of_dom; eauto using requires_present
        |intros Hin; apply (Hacyclic a); auto]).
  - assert (size (dom cookbook ∖ X) = 0) as Hzero by lia.
    apply size_empty_inv in Hzero. set_solver.
  - apply (IH (X ∪ {[a]})).
    + assert (dom cookbook ∖ (X ∪ {[a]}) ⊂ dom cookbook ∖ X) as Hlt by set_solver.
      apply subset_size in Hlt. lia.
    + intros x [Hx| ->%elem_of_singleton]%elem_of_union.
      * eapply tc_r; eauto.
      * by apply tc_once.
Qed.

Lemma acyclic_Acc a : acyclic cookbook → Acc (flip (requires cookbook)) a.
Proof.
  intros Hacyclic.
  apply (acyclic_Acc_below ∅ (size (dom cookbook ∖ (∅ : gset string)))); [done|lia|].
  set_solver.
Qed.
End graph.

(** ** [isReachable] *)

Section isReachable.
Context (cookbook : Cookbook) (dest : string).

Lemma isReachable_for_None items stack :
  isReachable_for cookbook dest items stack = None ↔ dest ∈ item_name <$> items.
Proof.
  revert stack. induction items as [|it rest IH]; intros stack; simpl.
  - split; [done|]. by intros ?%elem_of_nil.
  - rewrite elem_of_cons. case_bool_decide as Hname.
    + split; auto.
    + destruct (cookbook !! item_name it) as [[?|?]|]; rewrite IH; naive_solver.
Qed.

Lemma isReachable_for_Some items stack stack' :
  isReachable_for cookbook dest items stack = Some stack' →
  stack' = reverse (child_recipes cookbook items) ++ stack.
Proof.
  revert stack. induction items as [|it rest IH]; intros stack; simpl.
  - by intros [= ->].
  - case_bool_decide; [done|]. unfold child_recipes. simpl.
    destruct (cookbook !! item_name it) as [[r|?]|]; simpl; intros ->%IH; [|done..].
    by rewrite reverse_cons, <-app_assoc.
Qed.

Lemma elem_of_child_recipes items r :
  r ∈ child_recipes cookbook items ↔
  ∃ q, q ∈ item_name <$> items ∧ cookbook !! q = Some (IsRecipe r).
Proof.
  unfold child_recipes. rewrite list_elem_of_omap. split.
  - intros (it & Hit & Hr). exists (item_name it). split; [by apply list_elem_of_fmap_2|].
    by destruct (cookbook !! item_name it) as [[?|?]|]; simplify_eq.
  - intros (q & (it & -> & Hit)%list_elem_of_fmap & Hq).
    exists it. by rewrite Hq.
Qed.

(** The answer [false] is right: nothing that a recipe of the stack
    lists leads to [dest]. *)
Lemma isReachable_while_false fuel stack :
  isReachable_while fuel cookbook dest stack = Normal false →
  ∀ r q, r ∈ stack → q ∈ item_name <$> requiredItems r →
         ¬ rtc (requires cookbook) q dest.
Proof.
  revert stack. induction fuel as [|fuel IH]; intros stack; simpl; [done|].
  destruct stack as [|currentItem stack']; [by intros _ r q ?%elem_of_nil|].
  destruct (isReachable_for _ _ _ _) as [stack''|] eqn:Hfor; [|done].
  intros Hrest r q Hr Hq Hpath.
  pose proof Hfor as ->%isReachable_for_Some.
  apply elem_of_cons in Hr as [->|Hr].
  - apply rtc_inv in Hpath as [->|(q' & (r' & Hq' & Hin) & Hpath)].
    + apply (isReachable_for_None _ stack') in Hq. by rewrite Hq in Hfor.
    + apply (IH _ Hrest r' q'); [|done..].
      apply elem_of_app. left. apply elem_of_reverse, elem_of_child_recipes. eauto.
  - apply (IH _ Hrest r q); [|done..]. apply elem_of_app. by right.
Qed.

Lemma isReachable_false fuel src :
  isReachable fuel src dest cookbook = Normal false →
  ¬ tc (requires cookbook) src dest.
Proof.
  unfold isReachable. intros Hfalse Hpath.
  apply tc_first_step in Hpath as (q & (r & Hr & Hq) & Hrest).
  rewrite Hr in Hfalse.
  eapply isReachable_while_false; [done| |done..]. by left.
Qed.

Lemma isReachable_while_mono fuel fuel' stack b :
  isReachable_while fuel cookbook dest stack = Normal b →
  fuel ≤ fuel' →
  isReachable_while fuel' cookbook dest stack = Normal b.
Proof.
  revert fuel' stack. induction fuel as [|fuel IH]; intros fuel' stack; simpl; [done|].
  intros Hrun Hle. destruct fuel' as [|fuel']; [lia|]. simpl.
  destruct stack as [|currentItem stack']; [done|].
  destruct (isReachable_for _ _ _ _); [|done]. apply IH; [done|lia].
Qed.

(** One more recipe on the stack keeps the loop finite, when every
    descent from the name of that recipe ends. *)
Lemma isReachable_while_halts a r rest :
  Acc (flip (requires cookbook)) a →
  cookbook !! a = Some (IsRecipe r) →
  (∃ fuel b, isReachable_while fuel cookbook dest rest = Normal b) →
  ∃ fuel b, isReachable_while fuel cookbook dest (r :: rest) = Normal b.
Proof.
  intros Hacc. revert r rest.
  induction Hacc as [a _ IH]. intros r rest Ha Hrest.
  assert (∀ items,
             (∀ q, q ∈ item_name <$> items → requires cookbook a q) →
             ∀ rest stack',
               (∃ fuel b, isReachable_while fuel cookbook dest rest = Normal b) →
               isReachable_for cookbook dest items rest = Some stack' →
               ∃ fuel b, isReachable_while fuel cookbook dest stack' = Normal b)
    as Hpushes.
  { induction items as [|it items IHitems]; simpl; intros Hreq rest0 stack' Hrest0.
    - by intros [= <-].
    - case_bool_decide; [done|].
      assert (requires cookbook a (item_name it)) as Hait by (apply Hreq; left).
      assert (∀ q, q ∈ item_name <$> items → requires cookbook a q) as Hreq'
        by (intros q ?; apply Hreq; by right).
      destruct (cookbook !! item_name it) as [[r'|?]|] eqn:Hit; eauto. }
  destruct (isReachable_for cookbook dest (requiredItems r) rest) as [stack'|] eqn:Hfor.
  - destruct (Hpushes (requiredItems r)) with (rest := rest) (stack' := stack')
      as (fuel & b & Hrun); [|done..|].
    { intros q Hq. by exists r. }
    exists (S fuel), b. simpl. by rewrite Hfor.
  - exists 1, true. simpl. by rewrite Hfor.
Qed.

Lemma isReachable_total src :
  acyclic cookbook →
  is_Some (cookbook !! src) →
  ∃ fuel b, ∀ fuel', fuel ≤ fuel' → isReachable fuel' src dest cookbook = Normal b.
Proof.
  intros Hacyclic [e Hsrc]. unfold isReachable. rewrite Hsrc.
  destruct e as [item|?]; [|by exists 0, false].
  destruct (isReachable_while_halts src item []) as (fuel & b & Hrun);
    [by apply acyclic_Acc|done|by exists 1, false|].
  exists fuel, b. intros fuel' Hle. by eapply isReachable_while_mono.
Qed.
End isReachable.

(** ** Insertion-ordered maps *)

Section omap_facts.
Context {V : Type}.
Implicit Types (m : OMap.t V) (k : string) (v : V).

Lemma omap_keys_set k v m j :
  j ∈ OMap.keys (OMap.set k v m) ↔ j = k ∨ j ∈ OMap.keys m.
Proof.
  unfold OMap.keys. induction m as [|[k' v'] m IH]; simpl.
  - rewrite list_elem_of_singleton. split; [auto|]. by intros [?|?%elem_of_nil].
  - case_bool_decide; simpl; rewrite !elem_of_cons; [naive_solver|].
    rewrite IH. naive_solver.
Qed.

Lemma omap_get_set k v m j :
  OMap.get j (OMap.set k v m) = if bool_decide (j = k) then Some v else OMap.get j m.
Proof.
  induction m as [|[k' v'] m IH]; simpl.
  - done.
  - destruct (bool_decide_reflect (k = k')) as [->|]; simpl; rewrite ?IH;
      repeat case_bool_decide; congruence.
Qed.


Lemma omap_get_Some k v m :
  NoDup (OMap.keys m) → OMap.get k m = Some v ↔ (k, v) ∈ m.
Proof.
  unfold OMap.keys. induction m as [|[k' v'] m IH]; simpl.
  - intros _. split; [done|]. by intros ?%elem_of_nil.
  - intros [Hk' Hm]%NoDup_cons. rewrite elem_of_cons. case_bool_decide as Hk.
    + subst k'. split; [naive_solver|]. intros [[= ->]|Hin]; [done|].
      destruct Hk'. by apply (list_elem_of_fmap_2 fst) in Hin.
    + rewrite IH by done. naive_solver.
Qed.

Lemma omap_NoDup_set k v m : NoDup (OMap.keys m) → NoDup (OMap.keys (OMap.set k v m)).
Proof.
  unfold OMap.keys. induction m as [|[k' v'] m IH]; simpl.
  - intros _. apply NoDup_singleton.
  - intros [Hk' Hm]%NoDup_cons. case_bool_decide as Hk; simpl.
    + subst k'. by apply NoDup_cons.
    + apply NoDup_cons. split; [|auto].
      intros [->|?]%(omap_keys_set k v m k'); done.
Qed.
End omap_facts.

Lemma keyed_set n q m : keyed m → keyed (OMap.set n (RequiredItem n q) m).
Proof.
  unfold keyed. induction m as [|[k' v'] m IH]; simpl.
  - intros _. by repeat constructor.
  - intros [Hhd Htl]%Forall_cons. case_bool_decide; constructor; auto.
Qed.

Lemma keyed_values m : keyed m → item_name <$> OMap.values m = OMap.keys m.
Proof.
  unfold keyed, OMap.values, OMap.keys. induction 1 as [|[k v] m Hk _ IH]; simpl in *; [done|].
  by f_equal.
Qed.

(** ** [POST /entry] on the body of a well-formed entry *)

Lemma cycle_check_total cookbook entryName n :
  acyclic cookbook →
  ∃ fuel b, ∀ fuel', fuel ≤ fuel' → cycle_check fuel' entryName n cookbook = Normal b.
Proof.
  intros Hacyclic. unfold cycle_check. case_bool_decide as Hn.
  - by apply isReachable_total.
  - by exists 0, false.
Qed.

Lemma cycle_checks_total cookbook entryName (names : list string) :
  acyclic cookbook →
  ∃ fuel, ∀ fuel', fuel ≤ fuel' →
    ∀ n, n ∈ names → ∃ b, cycle_check fuel' entryName n cookbook = Normal b.
Proof.
  intros Hacyclic. induction names as [|n names (fuel1 & IH)].
  - exists 0. by intros fuel' _ n ?%elem_of_nil.
  - destruct (cycle_check_total cookbook entryName n Hacyclic) as (fuel2 & b & Hn).
    exists (fuel1 `max` fuel2). intros fuel' Hle n' [->|Hn']%elem_of_cons.
    + exists b. apply Hn. lia.
    + apply IH; [lia|done].
Qed.

Lemma cycle_check_false cookbook fuel entryName n :
  cycle_check fuel entryName n cookbook = Normal false →
  ¬ tc (requires cookbook) n entryName.
Proof.
  unfold cycle_check. case_bool_decide as Hn.
  - apply isReachable_false.
  - intros _ Hpath%tc_requires_present. done.
Qed.

Lemma entry_for_item fuel entryName it rest m cookbook :
  well_formed_item entryName it →
  entry_for fuel entryName (item_body it :: rest) m cookbook =
    match cycle_check fuel entryName (item_name it) cookbook with
    | Normal true => (Responded (Status400 (CycleDetected (item_name it))), cookbook)
    | Normal false =>
        entry_for fuel entryName rest
          (OMap.set (item_name it) (RequiredItem (item_name it) (quantity it)) m) cookbook
    | Responded r => (Responded r, cookbook)
    | Thrown f => (Thrown f, cookbook)
    | OutOfFuel => (OutOfFuel, cookbook)
    end.
Proof.
  intros (Hname & Hself & Hquantity).
  cbn [entry_for item_body]. unfold read_prop, cycle_check. cbn.
  unfold andThen at 1 2. cbn.
  rewrite !bool_decide_false by done. cbn.
  unfold andThen, cookbook_has, call, pure. cbn.
  destruct (bool_decide (is_Some (cookbook !! item_name it))); cbn.
  - destruct (isReachable fuel (item_name it) entryName cookbook) as [[|]| | |]; try done.
    by rewrite (proj2 (Z.leb_gt _ _)) by done.
  - by rewrite (proj2 (Z.leb_gt _ _)) by done.
Qed.

Lemma entry_for_checked fuel entryName items m cookbook :
  Forall (well_formed_item entryName) items →
  (∀ it, it ∈ items → ∃ b, cycle_check fuel entryName (item_name it) cookbook = Normal b) →
  entry_for fuel entryName (item_body <$> items) m cookbook =
    match find (λ it, found_cycle (cycle_check fuel entryName (item_name it) cookbook)) items with
    | Some it => (Responded (Status400 (CycleDetected (item_name it))), cookbook)
    | None => (Normal (collected items m), cookbook)
    end.
Proof.
  intros Hwf. revert m. induction Hwf as [|it items Hit _ IH]; intros m Hchecks.
  - done.
  - rewrite fmap_cons, entry_for_item by done. cbn [find collected foldl].
    destruct (Hchecks it) as [[|] ->]; [by left|done|]. cbn.
    apply IH. intros it' Hit'. apply Hchecks. by right.
Qed.



Lemma AddEntry_recipe fuel r cookbook :
  well_formed (IsRecipe r) →
  cookbook !! recipe_name r = None →
  AddEntry fuel (body (IsRecipe r)) cookbook =
    andThen (entry_for fuel (recipe_name r) (item_body <$> requiredItems r) OMap.empty)
      (λ requiredItemsMap,
         andThen (cookbook_set (recipe_name r)
                    (IsRecipe (Recipe (recipe_name r) (OMap.values requiredItemsMap))))
                 (λ _, respond Status200)) cookbook.
Proof.
  intros (Hname & Hitems & _) Hfresh. unfold AddEntry. cbn in *.
  unfold andThen at 1 2 3, cookbook_has; cbn.
  rewrite Hfresh, (bool_decide_false _ Hname). cbn.
  by destruct (requiredItems r).
Qed.

(** ** What [requiredItemsMap] collects *)

Lemma collected_keyed items m : keyed m → keyed (collected items m).
Proof.
  revert m. induction items as [|it items IH]; intros m Hm; simpl; [done|].
  by apply IH, keyed_set.
Qed.

Lemma collected_NoDup items m :
  NoDup (OMap.keys m) → NoDup (OMap.keys (collected items m)).
Proof.
  revert m. induction items as [|it items IH]; intros m Hm; simpl; [done|].
  by apply IH, omap_NoDup_set.
Qed.

Lemma last_quantity_cons n it items :
  last_quantity n (it :: items) =
    match last_quantity n items with
    | Some q => Some q
    | None => if bool_decide (item_name it = n) then Some (quantity it) else None
    end.
Proof.
  unfold last_quantity. rewrite filter_cons.
  case_decide as Hn.
  - rewrite bool_decide_true by done. rewrite last_cons.
    by destruct (last (filter _ items)).
  - rewrite bool_decide_false by done. by destruct (last (filter _ items)).
Qed.

Lemma collected_get n items m :
  OMap.get n (collected items m) =
    match last_quantity n items with
    | Some q => Some (RequiredItem n q)
    | None => OMap.get n m
    end.
Proof.
  revert m. induction items as [|it items IH]; intros m; [done|].
  change (collected (it :: items) m)
    with (collected items (OMap.set (item_name it) (RequiredItem (item_name it) (quantity it)) m)).
  rewrite IH, last_quantity_cons.
  destruct (last_quantity n items); [done|].
  rewrite omap_get_set. rewrite (bool_decide_ext (n = item_name it) (item_name it = n))
    by (split; congruence).
  by case_bool_decide; subst.
Qed.

Lemma collected_values items n q :
  RequiredItem n q ∈ OMap.values (collected items OMap.empty) ↔
  last_quantity n items = Some q.
Proof.
  assert (keyed (collected items OMap.empty)) as Hkeyed
    by (apply collected_keyed; constructor).
  assert (NoDup (OMap.keys (collected items OMap.empty))) as Hnodup
    by (apply collected_NoDup; constructor).
  transitivity (OMap.get n (collected items OMap.empty) = Some (RequiredItem n q)).
  - rewrite omap_get_Some by done. unfold OMap.values. rewrite list_elem_of_fmap. split.
    + intros ([k v] & Hv & Hin). simpl in Hv. subst v.
      unfold keyed in Hkeyed. rewrite Forall_forall in Hkeyed.
      pose proof (Hkeyed _ Hin) as Hk. simpl in Hk. by subst k.
    + intros Hin. by exists (n, RequiredItem n q).
  - rewrite collected_get. destruct (last_quantity n items); naive_solver.
Qed.

Lemma find_all_false {A} (f : A → bool) (l : list A) :
  (∀ x, x ∈ l → f x = false) → find f l = None.
Proof.
  induction l as [|x l IH]; intros Hall; simpl; [done|].
  rewrite Hall by left. apply IH. intros y Hy. apply Hall. by right.
Qed.

Lemma AddEntry_recipe_clear fuel r cookbook :
  well_formed (IsRecipe r) →
  cookbook !! recipe_name r = None →
  (∀ it, it ∈ requiredItems r →
         is_Some (cookbook !! item_name it) →
         isReachable fuel (item_name it) (recipe_name r) cookbook = Normal false) →
  AddEntry fuel (body (IsRecipe r)) cookbook =
    (Responded Status200, <[recipe_name r := stored (IsRecipe r)]> cookbook).
Proof.
  intros Hwf Hfresh Hclear. rewrite AddEntry_recipe by done.
  destruct Hwf as (_ & _ & Hitems). unfold andThen at 1.
  rewrite entry_for_checked; [|done|].
  - rewrite find_all_false; [done|].
    intros it Hit. unfold cycle_check.
    case_bool_decide; [|done]. by rewrite Hclear.
  - intros it Hit. exists false. unfold cycle_check.
    case_bool_decide; [|done]. by apply Hclear.
Qed.


(** C6. Forward references are legal at insertion, in every cookbook: the
    body of a well-formed recipe with a fresh name is answered with
    status 200 and the recipe is stored as soon as the required names
    that are present pass the guard of line 107; a required name that is
    absent is never looked at, whatever the loop budget. In particular,
    when all the required names are absent the request succeeds. *)
Theorem forward_references_are_legal :
  ∀ cookbook r fuel,
    well_formed (IsRecipe r) →
    cookbook !! recipe_name r = None →
    (∀ it, it ∈ requiredItems r →
           is_Some (cookbook !! item_name it) →
           isReachable fuel (item_name it) (recipe_name r) cookbook = Normal false) →
    AddEntry fuel (body (IsRecipe r)) cookbook =
      (Responded Status200, <[recipe_name r := stored (IsRecipe r)]> cookbook).
Proof. intros cookbook r fuel. apply AddEntry_recipe_clear. Qed.

(** C8. Last write wins: when the body of a well-formed recipe with a
    fresh name passes the guards of line 107, it is answered with status
    200 whether or not its items repeat a name, and the stored
    requirements hold every required name once, with the quantity of its
    last item in the request. *)
Theorem last_write_wins :
  ∀ cookbook r fuel,
    well_formed (IsRecipe r) →
    cookbook !! recipe_name r = None →
    (∀ it, it ∈ requiredItems r →
           is_Some (cookbook !! item_name it) →
           isReachable fuel (item_name it) (recipe_name r) cookbook = Normal false) →
    ∃ kept,
      AddEntry fuel (body (IsRecipe r)) cookbook =
        (Responded Status200,
         <[recipe_name r := IsRecipe (Recipe (recipe_name r) kept)]> cookbook) ∧
      NoDup (item_name <$> kept) ∧
      (∀ n, n ∈ item_name <$> requiredItems r → n ∈ item_name <$> kept) ∧
      (∀ n q, RequiredItem n q ∈ kept ↔ last_quantity n (requiredItems r) = Some q).
Proof.
  intros cookbook r fuel Hwf Hfresh Hclear.
  exists (OMap.values (collected (requiredItems r) OMap.empty)).
  assert (∀ n q, RequiredItem n q ∈ OMap.values (collected (requiredItems r) OMap.empty)
                 ↔ last_quantity n (requiredItems r) = Some q) as Hkept
    by (intros n q; apply collected_values).
  split; [by apply AddEntry_recipe_clear|]. split; [|split; [|done]].
  - rewrite keyed_values by (apply collected_keyed; constructor).
    apply collected_NoDup. constructor.
  - intros n (it & -> & Hit)%list_elem_of_fmap.
    assert (is_Some (last_quantity (item_name it) (requiredItems r))) as [q Hq].
    { unfold last_quantity. rewrite fmap_is_Some, <-not_eq_None_Some, last_None.
      intros Hempty. eapply (filter_nil_not_elem_of _ _ it) in Hempty; done. }
    apply Hkept in Hq. by apply (list_elem_of_fmap_2 item_name) in Hq.
Qed.

Lemma entry_for_Normal fuel entryName raw m cookbook m' cookbook' :
  entry_for fuel entryName raw m cookbook = (Normal m', cookbook') →
  keyed m →
  cookbook' = cookbook ∧ keyed m' ∧
  ∀ k, k ∈ OMap.keys m' →
       k ∈ OMap.keys m ∨
       (k ≠ entryName ∧ cycle_check fuel entryName k cookbook = Normal false).
Proof.
  revert m. induction raw as [|requiredItem rest IH]; intros m; simpl.
  - intros [= <- <-] Hm. auto.
  - unfold andThen, read_prop, cookbook_has, call, pure, respond, throw.
    intros Hrun Hm.
    repeat (case_match; simplify_eq/=; try done).
    all: apply IH in Hrun as (-> & Hm' & Hkeys); [|by apply keyed_set].
    all: split; [done|]; split; [done|].
    all: intros k [[->|Hk]%omap_keys_set|Hk]%Hkeys; [|by left|by right..].
    all: match goal with
         | H : _ || _ = false |- _ =>
             apply orb_false_elim in H as [_ Hself%bool_decide_eq_false]
         end.
    all: right; split; [done|]; unfold cycle_check.
    all: match goal with
         | H : bool_decide (is_Some _) = _ |- _ => by rewrite H
         end.
Qed.

Lemma isReachable_while_cases fuel cookbook dest stack :
  (∃ b, isReachable_while fuel cookbook dest stack = Normal b) ∨
  isReachable_while fuel cookbook dest stack = OutOfFuel.
Proof.
  revert stack. induction fuel as [|fuel IH]; intros stack; simpl; [by right|].
  destruct stack as [|currentItem stack']; [by eauto|].
  destruct (isReachable_for _ _ _ _); eauto.
Qed.

Lemma isReachable_cases fuel src dest cookbook :
  (∃ b, isReachable fuel src dest cookbook = Normal b) ∨
  isReachable fuel src dest cookbook = OutOfFuel ∨
  (cookbook !! src = None ∧ isReachable fuel src dest cookbook = Thrown SrcNotInCookbook).
Proof.
  unfold isReachable. destruct (cookbook !! src) as [[item|?]|]; eauto.
  destruct (isReachable_while_cases fuel cookbook dest [item]); auto.
Qed.

Lemma entry_for_Responded fuel entryName raw m cookbook r cookbook' :
  entry_for fuel entryName raw m cookbook = (Responded r, cookbook') →
  ∃ why, r = Status400 why.
Proof.
  revert m. induction raw as [|requiredItem rest IH]; intros m; simpl; [done|].
  unfold andThen, read_prop, cookbook_has, call, pure, respond, throw.
  intros Hrun.
  repeat (case_match; simplify_eq/=; try done); eauto.
  all: match goal with
       | H : isReachable ?f ?s ?d ?c = Responded _ |- _ =>
           destruct (isReachable_cases f s d c) as [(? & ?)|[?|(? & ?)]]; congruence
       end.
Qed.

(** [POST /entry] answered with status 200: what was stored, and what the
    handler had checked. *)
Lemma AddEntry_200 fuel data cookbook cookbook' :
  AddEntry fuel data cookbook = (Responded Status200, cookbook') →
  ∃ e,
    cookbook' = <[entry_name e := e]> cookbook ∧
    entry_name e ≠ "" ∧
    cookbook !! entry_name e = None ∧
    ∀ q, q ∈ item_name <$> entry_items e →
         q ≠ entry_name e ∧ cycle_check fuel (entry_name e) q cookbook = Normal false.
Proof.
  unfold AddEntry, andThen, read_prop, cookbook_has, cookbook_set, pure, respond, throw.
  intros Hrun.
  repeat (case_match; simplify_eq; try done).
  all: match goal with
       | H : bool_decide (_ = "") || _ = false |- _ =>
           apply orb_false_elim in H
             as [Hname%bool_decide_eq_false Hfresh%bool_decide_eq_false%eq_None_not_Some]
       end.
  - eexists (IsIngredient (Ingredient _ _)). simpl.
    split; [reflexivity|]. split; [done|]. split; [done|].
    by intros q ?%elem_of_nil.
  - match goal with
    | H : entry_for _ _ _ _ _ = (Normal _, _) |- _ =>
        apply entry_for_Normal in H as (-> & Hkeyed & Hkeys); [|constructor]
    end.
    eexists (IsRecipe (Recipe _ (OMap.values _))). simpl.
    split; [reflexivity|]. split; [done|]. split; [done|].
    rewrite keyed_values by done.
    intros q [?%elem_of_nil|?]%Hkeys; done.
  - match goal with
    | H : entry_for _ _ _ _ _ = (Responded _, _) |- _ =>
        by apply entry_for_Responded in H as [why [=]]
    end.
Qed.

(** ** The cookbook never has a cycle *)

Section insert.
Context (cookbook : Cookbook) (e : cookbookEntry).
Let n := entry_name e.
Let cookbook' : Cookbook := <[n := e]> cookbook.

Lemma requires_insert_ne a b : a ≠ n → requires cookbook' a b → requires cookbook a b.
Proof.
  intros Ha (r & Hr & Hb). exists r. split; [|done].
  subst cookbook'. by rewrite lookup_insert_ne in Hr.
Qed.

Lemma requires_insert_eq b : requires cookbook' n b → b ∈ item_name <$> entry_items e.
Proof.
  intros (r & Hr & Hb). subst cookbook'. rewrite lookup_insert_eq in Hr. by simplify_eq.
Qed.

(** A path to the new name is, up to its first arrival there, a path
    of the old graph. *)
Lemma rtc_requires_insert a : rtc (requires cookbook') a n → rtc (requires cookbook) a n.
Proof.
  revert a. apply rtc_ind_l; [done|]. intros a b Hab _ IH.
  destruct (decide (a = n)) as [->|Ha]; [done|].
  eapply rtc_l; [|done]. by apply requires_insert_ne.
Qed.

Lemma tc_requires_insert a b :
  tc (requires cookbook') a b →
  tc (requires cookbook) a b ∨
  (rtc (requires cookbook') a n ∧ tc (requires cookbook') n b).
Proof.
  induction 1 as [a b Hab|a c b Hac Hcb IH].
  - destruct (decide (a = n)) as [->|Ha].
    + right. split; [done|]. by apply tc_once.
    + left. by apply tc_once, requires_insert_ne.
  - destruct (decide (a = n)) as [->|Ha].
    + right. split; [done|]. by eapply tc_l.
    + destruct IH as [IH|[IH1 IH2]].
      * left. eapply tc_l; [|done]. by apply requires_insert_ne.
      * right. split; [|done]. by eapply rtc_l.
Qed.

Lemma insert_acyclic :
  acyclic cookbook →
  (∀ q, q ∈ item_name <$> entry_items e →
        q ≠ n ∧ ¬ tc (requires cookbook) q n) →
  acyclic cookbook'.
Proof.
  intros Hacyclic Hitems a Hcycle.
  apply tc_requires_insert in Hcycle as [Hold|[Hto Hfrom]]; [by apply (Hacyclic a)|].
  assert (tc (requires cookbook') n n) as Hnew by (by eapply tc_rtc_r).
  apply tc_first_step in Hnew as (q & Hq%requires_insert_eq & Hback%rtc_requires_insert).
  destruct (Hitems q Hq) as [Hne Hnopath].
  apply (proj1 (rtc_tc _ _)) in Hback as [?|?]; done.
Qed.
End insert.

Lemma acyclic_empty : acyclic ∅.
Proof. intros a [e He]%tc_requires_present. by rewrite lookup_empty in He. Qed.

Lemma AddEntry_acyclic fuel data cookbook cookbook' :
  acyclic cookbook →
  AddEntry fuel data cookbook = (Responded Status200, cookbook') →
  acyclic cookbook'.
Proof.
  intros Hacyclic (e & -> & _ & _ & Hitems)%AddEntry_200.
  apply insert_acyclic; [done|].
  intros q [Hne Hcheck%cycle_check_false]%Hitems. done.
Qed.

Lemma reachable_no_empty_name cookbook : reachable cookbook → cookbook !! "" = None.
Proof.
  induction 1 as [|cookbook fuel data cookbook' _ IH Hadd]; [done|].
  apply AddEntry_200 in Hadd as (e & -> & Hname & _). by rewrite lookup_insert_ne.
Qed.

Lemma reachable_is_acyclic cookbook : reachable cookbook → acyclic cookbook.
Proof.
  induction 1 as [|cookbook fuel data cookbook' _ IH Hadd].
  - apply acyclic_empty.
  - by eapply AddEntry_acyclic.
Qed.

(** C2. The requirement graph of the cookbook, with an edge from every
    present recipe to every name it requires, has no cycle in any state
    that [POST /entry] requests answered with status 200 lead to from the
    empty cookbook, whatever the order of the requests, forward
    references included. *)
Theorem cookbook_stays_acyclic :
  ∀ cookbook, reachable cookbook → ∀ a, ¬ tc (requires cookbook) a a.
Proof. intros cookbook Hreachable. by apply reachable_is_acyclic. Qed.

(** ** The guard of [isReachable] *)

Lemma entry_for_guarded fuel entryName raw m cookbook :
  (entry_for fuel entryName raw m cookbook).1 ≠ Thrown SrcNotInCookbook.
Proof.
  revert m. induction raw as [|requiredItem rest IH]; intros m; simpl; [done|].
  unfold andThen, read_prop, cookbook_has, call, pure, respond, throw.
  repeat (case_match; simplify_eq/=; try done).
  all: try match goal with
       | H : entry_for ?f ?e ?r ?m ?c = _ |- _ =>
           pose proof (IH m) as Hguard; rewrite H in Hguard; exact Hguard
       end.
  all: match goal with
       | H : isReachable ?f ?s ?d ?c = _ |- _ =>
           destruct (isReachable_cases f s d c) as [(? & ?)|[?|(Habsent & ?)]];
             try congruence
       end.
  all: match goal with
       | H : bool_decide (is_Some _) = true |- _ =>
           apply bool_decide_eq_true in H as [? ?]; congruence
       end.
Qed.

Lemma AddEntry_guarded fuel data cookbook :
  (AddEntry fuel data cookbook).1 ≠ Thrown SrcNotInCookbook.
Proof.
  unfold AddEntry, andThen, read_prop, cookbook_has, cookbook_set, pure, respond, throw.
  repeat (case_match; simplify_eq; cbn [fst]; try done).
  all: match goal with
       | H : entry_for ?f ?e ?r ?m ?c = _ |- _ =>
           pose proof (entry_for_guarded f e r m c) as Hguard;
             rewrite H in Hguard; intros [= ->]; by apply Hguard
       end.
Qed.

(** ** [GET /summary] *)

Section summary.
Context (cookbook : Cookbook).

(** The loop of lines 203-217 either stops at the first required name
    that is absent, or pushes every required name. *)
Lemma summary_for_cases recipeName items recipes ingredients :
  (∃ z, z ∈ item_name <$> items ∧ cookbook !! z = None ∧
        summary_for recipeName items recipes ingredients cookbook =
          (Responded (Status400 (DanglingReference z)), cookbook)) ∨
  (∃ ingredients',
      (∀ q, q ∈ item_name <$> items → is_Some (cookbook !! q)) ∧
      summary_for recipeName items recipes ingredients cookbook =
        (Normal (reverse (item_name <$> items) ++ recipes, ingredients'), cookbook)).
Proof.
  revert recipes ingredients.
  induction items as [|it items IH]; intros recipes ingredients.
  - right. exists ingredients. split; [|done]. by intros q ?%elem_of_nil.
  - cbn [summary_for]. unfold andThen at 1. cbn.
    case_bool_decide as Hit; cbn.
    + match goal with
      | |- context [summary_for _ _ ?rs ?ings] =>
          destruct (IH rs ings) as [(z & Hz & Habsent & ->)|(ingredients' & Hpresent & ->)]
      end.
      * left. exists z. split; [by right|done].
      * right. exists ingredients'. split.
        -- intros q [->|Hq]%elem_of_cons; auto.
        -- change (rev_append (item_name <$> items) [item_name it])
             with (reverse (item_name it :: (item_name <$> items))).
           by rewrite reverse_cons, <-app_assoc.
    + left. exists (item_name it). split; [by left|]. split; [|done].
      by apply eq_None_not_Some.
Qed.

Lemma summary_while_mono fuel fuel' recipes ingredients :
  (summary_while fuel recipes ingredients cookbook).1 ≠ OutOfFuel →
  fuel ≤ fuel' →
  summary_while fuel' recipes ingredients cookbook =
  summary_while fuel recipes ingredients cookbook.
Proof.
  revert fuel' recipes ingredients.
  induction fuel as [|fuel IH]; intros fuel' recipes ingredients; [done|].
  intros Hrun Hle. destruct fuel' as [|fuel']; [lia|].
  cbn [summary_while] in *.
  destruct recipes as [|recipeName recipes']; [done|].
  unfold andThen, cookbook_get in *.
  destruct (cookbook !! recipeName) as [[r|i]|]; [|apply IH; [done|lia]|done].
  destruct (summary_for_cases recipeName (requiredItems r) recipes' ingredients)
    as [(z & _ & _ & Hfor)|(ingredients' & _ & Hfor)]; rewrite Hfor in *; [done|].
  apply IH; [done|lia].
Qed.

(** What the loop of lines 189-221 ends with. *)
Lemma summary_while_cases fuel recipes ingredients :
  match (summary_while fuel recipes ingredients cookbook).1 with
  | Normal _ =>
      ∀ a z, a ∈ recipes → rtc (requires cookbook) a z → is_Some (cookbook !! z)
  | Responded r =>
      (∃ z, r = Status400 (MissingRecipe z) ∧ z ∈ recipes ∧ cookbook !! z = None) ∨
      (∃ a z, r = Status400 (DanglingReference z) ∧ a ∈ recipes ∧
              tc (requires cookbook) a z ∧ cookbook !! z = None)
  | Thrown _ => False
  | OutOfFuel => True
  end.
Proof.
  revert recipes ingredients.
  induction fuel as [|fuel IH]; intros recipes ingredients; [done|].
  cbn [summary_while].
  destruct recipes as [|recipeName recipes']; [by intros a z ?%elem_of_nil|].
  unfold andThen, cookbook_get.
  destruct (cookbook !! recipeName) as [[r|i]|] eqn:Hrecipe; cbn.
  - destruct (summary_for_cases recipeName (requiredItems r) recipes' ingredients)
      as [(z & Hz & Habsent & ->)|(ingredients' & Hpresent & ->)]; cbn.
    { right. exists recipeName, z. split; [done|]. split; [by left|].
      split; [|done]. apply tc_once. by exists r. }
    match goal with
    | |- context [summary_while _ ?rs ?ings] => specialize (IH rs ings)
    end.
    destruct (summary_while _ _ _ _).1 as [result|reply| |]; [| |done..].
    + intros a z [->|Ha]%elem_of_cons Hpath.
      * apply rtc_inv in Hpath as [<-|(q & (r' & Hr' & Hq) & Hpath)]; [by eauto|].
        simplify_eq. apply (IH q z); [|done].
        apply elem_of_app. left. by apply elem_of_reverse.
      * apply (IH a z); [|done]. apply elem_of_app. by right.
    + destruct IH as [(z & -> & Hz & Habsent)|(a & z & -> & Ha & Hpath & Habsent)].
      * apply elem_of_app in Hz as [Hz|Hz].
        { rewrite elem_of_reverse in Hz. apply Hpresent in Hz as [? ?]. congruence. }
        left. exists z. split; [done|]. split; [by right|done].
      * right. apply elem_of_app in Ha as [Ha|Ha].
        { rewrite elem_of_reverse in Ha. exists recipeName, z. split; [done|]. split; [by left|]. split; [|done].
          eapply tc_l; [|done]. by exists r. }
        exists a, z. split; [done|]. split; [by right|done].
  - specialize (IH recipes' ingredients).
    destruct (summary_while _ _ _ _).1 as [result|reply| |]; [| |done..].
    + intros a z [->|Ha]%elem_of_cons Hpath; [|by eauto].
      apply rtc_inv in Hpath as [<-|(q & (r' & Hr' & Hq) & Hpath)]; [by eauto|congruence].
    + destruct IH as [(z & -> & Hz & Habsent)|(a & z & -> & Ha & Hpath & Habsent)].
      * left. exists z. split; [done|]. split; [by right|done].
      * right. exists a, z. split; [done|]. split; [by right|done].
  - left. exists recipeName. split; [done|]. split; [by left|done].
Qed.

(** One more name on the stack keeps the loop finite, when every
    descent from that name ends. *)
Lemma summary_while_halts a rest :
  Acc (flip (requires cookbook)) a →
  (∀ ingredients, ∃ fuel, (summary_while fuel rest ingredients cookbook).1 ≠ OutOfFuel) →
  ∀ ingredients,
    ∃ fuel, (summary_while fuel (a :: rest) ingredients cookbook).1 ≠ OutOfFuel.
Proof.
  intros Hacc. revert rest. induction Hacc as [a _ IH]. intros rest Hrest ingredients.
  destruct (cookbook !! a) as [[r|i]|] eqn:Ha.
  - destruct (summary_for_cases a (requiredItems r) rest ingredients)
      as [(z & _ & _ & Hfor)|(ingredients' & _ & Hfor)].
    { exists 1. cbn. unfold andThen, cookbook_get. by rewrite Ha, Hfor. }
    assert (∀ names,
               (∀ q, q ∈ names → requires cookbook a q) →
               ∀ ingredients0,
                 ∃ fuel, (summary_while fuel (names ++ rest) ingredients0 cookbook).1
                         ≠ OutOfFuel) as Hpushed.
    { induction names as [|q names IHnames]; intros Hreq; [done|].
      apply (IH q); [apply Hreq; by left|].
      apply IHnames. intros q' ?. apply Hreq. by right. }
    destruct (Hpushed (reverse (item_name <$> requiredItems r)))
      with (ingredients0 := OMap.delete a ingredients') as [fuel Hrun].
    { intros q Hq. rewrite elem_of_reverse in Hq. by exists r. }
    exists (S fuel). cbn. unfold andThen, cookbook_get. by rewrite Ha, Hfor.
  - destruct (Hrest ingredients) as [fuel Hrun].
    exists (S fuel). cbn. unfold andThen, cookbook_get. by rewrite Ha.
  - exists 1. cbn. unfold andThen, cookbook_get. by rewrite Ha.
Qed.

Lemma summary_while_total recipes ingredients :
  acyclic cookbook →
  ∃ fuel, ∀ fuel', fuel ≤ fuel' →
    (summary_while fuel' recipes ingredients cookbook).1 ≠ OutOfFuel.
Proof.
  intros Hacyclic.
  assert (∃ fuel, (summary_while fuel recipes ingredients cookbook).1 ≠ OutOfFuel)
    as [fuel Hrun].
  { revert ingredients. induction recipes as [|a rest IH]; intros ingredients.
    - by exists 1.
    - apply summary_while_halts; [by apply acyclic_Acc|done]. }
  exists fuel. intros fuel' Hle. by rewrite (summary_while_mono fuel fuel').
Qed.
End summary.

Lemma Summarize_absent fuel name cookbook :
  cookbook !! name = None →
  Summarize fuel name cookbook = (Responded (Status400 NotFound), cookbook).
Proof.
  intros Habsent. unfold Summarize, andThen, cookbook_has. cbn.
  rewrite Habsent. cbn. rewrite orb_true_r. reflexivity.
Qed.

Lemma Summarize_ingredient fuel name i cookbook :
  name ≠ "" →
  cookbook !! name = Some (IsIngredient i) →
  Summarize fuel name cookbook = (Responded (Status400 NotARecipe), cookbook).
Proof.
  intros Hname Hi. unfold Summarize, andThen, cookbook_has, cookbook_get. cbn.
  rewrite Hi. cbn. rewrite (bool_decide_false _ Hname). cbn. by rewrite Hi.
Qed.

Lemma Summarize_recipe fuel name r cookbook :
  name ≠ "" →
  cookbook !! name = Some (IsRecipe r) →
  Summarize fuel name cookbook =
    match summary_while fuel [name] (OMap.set name 1%Z OMap.empty) cookbook with
    | (Normal ingredients, cookbook') =>
        let tally := summary_tally cookbook' (OMap.entries ingredients) 0%Z [] in
        (Responded (Status200Json (Summary name tally.1 tally.2)), cookbook')
    | (Responded reply, cookbook') => (Responded reply, cookbook')
    | (Thrown f, cookbook') => (Thrown f, cookbook')
    | (OutOfFuel, cookbook') => (OutOfFuel, cookbook')
    end.
Proof.
  intros Hname Hr. unfold Summarize, andThen, cookbook_has, cookbook_get. cbn.
  rewrite Hr. cbn. rewrite (bool_decide_false _ Hname). cbn. rewrite Hr.
  by destruct (summary_while _ _ _ _) as [[ingredients|reply|f|] cookbook'].
Qed.

Lemma Summarize_responds cookbook name :
  acyclic cookbook →
  ∃ fuel, ∀ fuel', fuel ≤ fuel' → ∃ reply, (Summarize fuel' name cookbook).1 = Responded reply.
Proof.
  intros Hacyclic.
  destruct (decide (name = "")) as [->|Hname].
  { exists 0. intros fuel' _. by eexists. }
  destruct (cookbook !! name) as [[r|i]|] eqn:Hentry.
  - destruct (summary_while_total cookbook [name] (OMap.set name 1%Z OMap.empty) Hacyclic)
      as [fuel Hrun].
    exists fuel. intros fuel' Hle. specialize (Hrun fuel' Hle).
    rewrite (Summarize_recipe _ _ r) by done.
    pose proof (summary_while_cases cookbook fuel' [name] (OMap.set name 1%Z OMap.empty))
      as Hcases.
    destruct (summary_while _ _ _ _) as [[ingredients|reply|f|] cookbook']; cbn in *;
      by eauto.
  - exists 0. intros fuel' _. rewrite (Summarize_ingredient _ _ i) by done. by eexists.
  - exists 0. intros fuel' _. rewrite Summarize_absent by done. by eexists.
Qed.

(** C5. The errors of [GET /summary]: NotFound for a name that is absent
    from the cookbook; NotARecipe for the name of an ingredient; and, in
    a cookbook without cycles, DanglingReference for the name of a recipe
    that transitively requires a name absent from the cookbook (the reply
    names such a name). The cookbook has no entry under the empty name
    (line 72 lets none in), which line 173 takes as absent. *)
Theorem Summarize_error_contract :
  (∀ cookbook name fuel,
      cookbook !! name = None →
      Summarize fuel name cookbook = (Responded (Status400 NotFound), cookbook)) ∧
  (∀ cookbook name i fuel,
      cookbook !! "" = None →
      cookbook !! name = Some (IsIngredient i) →
      Summarize fuel name cookbook = (Responded (Status400 NotARecipe), cookbook)) ∧
  (∀ cookbook name r,
      cookbook !! "" = None →
      acyclic cookbook →
      cookbook !! name = Some (IsRecipe r) →
      (∃ z, tc (requires cookbook) name z ∧ cookbook !! z = None) →
      ∃ fuel0 z,
        tc (requires cookbook) name z ∧ cookbook !! z = None ∧
        ∀ fuel, fuel0 ≤ fuel →
          Summarize fuel name cookbook =
            (Responded (Status400 (DanglingReference z)), cookbook)).
Proof.
  split; [|split].
  - intros cookbook name fuel. apply Summarize_absent.
  - intros cookbook name i fuel Hempty Hi. apply (Summarize_ingredient _ _ i); [|done].
    intros ->. congruence.
  - intros cookbook name r Hempty Hacyclic Hr (z0 & Hpath0 & Habsent0).
    assert (name ≠ "") as Hname by (intros ->; congruence).
    destruct (summary_while_total cookbook [name] (OMap.set name 1%Z OMap.empty) Hacyclic)
      as [fuel0 Hrun].
    pose proof (summary_while_cases cookbook fuel0 [name] (OMap.set name 1%Z OMap.empty))
      as Hcases.
    pose proof (readonly_summary_while fuel0 [name] (OMap.set name 1%Z OMap.empty) cookbook)
      as Hsame.
    pose proof (Hrun fuel0 (le_n _)) as Hrun0.
    destruct (summary_while fuel0 _ _ _) as [[ingredients|reply|f|] cookbook'] eqn:Hwhile;
      cbn in Hcases, Hsame, Hrun0; [| |done..]; subst cookbook'.
    + destruct (Hcases name z0) as [? ?]; [by left|by apply tc_rtc|congruence].
    + destruct Hcases as [(z & -> & ->%list_elem_of_singleton & Habsent)
                         |(a & z & -> & ->%list_elem_of_singleton & Hpath & Habsent)];
        [congruence|].
      exists fuel0, z. split; [done|]. split; [done|].
      intros fuel Hle. rewrite (Summarize_recipe _ _ r) by done.
      rewrite (summary_while_mono cookbook fuel0 fuel) by (by rewrite ?Hwhile).
      by rewrite Hwhile.
Qed.

(** C7. In a cookbook without cycles both loops end: [isReachable]
    returns a boolean for every [src] that is present, though it keeps no
    visited set, and the worklist loop of [GET /summary] ends from every
    stack of names, so that the handler answers for every name. *)
Theorem loops_terminate :
  ∀ cookbook,
    acyclic cookbook →
    (∀ src dest,
        is_Some (cookbook !! src) →
        ∃ fuel b, ∀ fuel', fuel ≤ fuel' →
          isReachable fuel' src dest cookbook = Normal b) ∧
    (∀ recipes ingredients,
        ∃ fuel, ∀ fuel', fuel ≤ fuel' →
          (summary_while fuel' recipes ingredients cookbook).1 ≠ OutOfFuel) ∧
    (∀ name,
        ∃ fuel, ∀ fuel', fuel ≤ fuel' →
          ∃ reply, (Summarize fuel' name cookbook).1 = Responded reply).
Proof.
  intros cookbook Hacyclic. split; [|split].
  - intros src dest Hsrc. by apply isReachable_total.
  - intros recipes ingredients. by apply summary_while_total.
  - intros name. by apply Summarize_responds.
Qed.

(** C10. [isReachable] is partial: it throws when [src] is not in the
    cookbook. [POST /entry] only calls it behind [cookbook.has]: no
    request ends with that [TypeError], in any cookbook, and in every
    cookbook the handlers can build the guarded call of line 107 returns
    a boolean for every required name and every new name. *)
Theorem isReachable_guarded :
  (∀ fuel src dest cookbook,
      cookbook !! src = None →
      isReachable fuel src dest cookbook = Thrown SrcNotInCookbook) ∧
  (∀ fuel data cookbook,
      (AddEntry fuel data cookbook).1 ≠ Thrown SrcNotInCookbook) ∧
  (∀ cookbook,
      reachable cookbook →
      ∀ entryName requiredItemName,
        ∃ fuel b, ∀ fuel', fuel ≤ fuel' →
          cycle_check fuel' entryName requiredItemName cookbook = Normal b).
Proof.
  split; [|split].
  - intros fuel src dest cookbook Habsent. unfold isReachable. by rewrite Habsent.
  - apply AddEntry_guarded.
  - intros cookbook Hreachable entryName requiredItemName.
    by apply cycle_check_total, reachable_is_acyclic.
Qed.

(** ** The sample catalogs *)

Lemma reachable_forward_catalog : reachable forward_catalog.
Proof.
  eapply (reachable_AddEntry _ 0 (body recipe_X)); [apply reachable_empty|].
  vm_compute. reflexivity.
Qed.

Lemma reachable_shared_catalog : reachable shared_catalog.
Proof.
  eapply (reachable_AddEntry _ 5 (body recipe_R)).
  eapply (reachable_AddEntry _ 5 (body recipe_A)).
  eapply (reachable_AddEntry _ 5 (body recipe_S)).
  eapply (reachable_AddEntry _ 5 (body leaf_L)).
  apply reachable_empty.
  all: vm_compute; reflexivity.
Qed.


Lemma well_formed_recipe_X : well_formed recipe_X.
Proof. repeat split; [done..|]. by repeat constructor. Qed.

Lemma well_formed_recipe_Y : well_formed recipe_Y.
Proof. repeat split; [done..|]. by repeat constructor. Qed.

Lemma well_formed_recipe_W : well_formed (IsRecipe recipe_W).
Proof. repeat split; [done..|]. by repeat constructor. Qed.

(** Every name that [R] transitively requires is in [shared_catalog]. *)
Lemma shared_catalog_closed n :
  rtc (requires shared_catalog) "R" n → is_Some (shared_catalog !! n).
Proof.
  pose proof (summary_while_cases shared_catalog 7 ["R"] (OMap.set "R" 1%Z OMap.empty))
    as Hcases.
  vm_compute in Hcases. intros Hpath. apply (Hcases "R" n); [by left|done].
Qed.

(** On the diamond of the specification the summary is the specified
    one: five [L]. *)
Example Summarize_diamond k :
  Summarize (7 + k) "D" diamond_catalog =
    (Responded (Status200Json (Summary "D" 50 [RequiredItem "L" 5])), diamond_catalog).
Proof. vm_compute. reflexivity. Qed.

(** C1, refuted by the code. [shared_catalog] is built by four requests,
    has no cycle and holds every name that [R] requires: [R] needs three
    [S] and two [A], [A] needs one [S], [S] needs one [L] of cook time 10.
    The requirement chains give 3 + 2 = 5 [L] and the cost 50, but
    [GET /summary] answers 6 [L] and the cook time 60: [S] is popped a
    second time after line 220 deleted its count, and line 216 then
    multiplies by the default 1. *)
Theorem Summarize_overcounts_shared_recipe :
  reachable shared_catalog ∧
  acyclic shared_catalog ∧
  (∀ k, Summarize (7 + k) "R" shared_catalog =
          (Responded (Status200Json (Summary "R" 60 [RequiredItem "L" 6])),
           shared_catalog)) ∧
  spec_leafQuantities 4 shared_catalog "R" = {["L" := 5%Z]} ∧
  spec_cost 4 shared_catalog "R" = 50%Z.
Proof.
  split; [apply reachable_shared_catalog|].
  split; [apply reachable_is_acyclic, reachable_shared_catalog|].
  split; [|split]; [intros k|..]; vm_compute; reflexivity.
Qed.

(** C9, refuted by the code. The two replacements run in the order
    separators first, other characters second: a stripped character that
    stood between two separators leaves two spaces between the words,
    which line 49 means to be one. *)
Theorem parse_handwriting_leaves_double_space :
  parse_handwriting "a 1 b" = Some "A  B" ∧
  parse_handwriting "meat-3-ball" = Some "Meat  Ball".
Proof. split; vm_compute; reflexivity. Qed.

(** ** Instances *)

Lemma cookbook_stays_acyclic_witness :
  reachable shared_catalog ∧ ∀ a, ¬ tc (requires shared_catalog) a a.
Proof.
  split; [apply reachable_shared_catalog|].
  apply (cookbook_stays_acyclic shared_catalog), reachable_shared_catalog.
Defined.


Lemma failure_leaves_cookbook_unchanged_witness :
  (AddEntry 1 (body recipe_Y) forward_catalog).1 ≠ Responded Status200 ∧
  (AddEntry 1 (body recipe_Y) forward_catalog).2 = forward_catalog.
Proof.
  assert ((AddEntry 1 (body recipe_Y) forward_catalog).1 ≠ Responded Status200) as Hfail
    by (vm_compute; discriminate).
  split; [exact Hfail|].
  apply (proj1 failure_leaves_cookbook_unchanged 1 (body recipe_Y) forward_catalog Hfail).
Defined.

Lemma Summarize_error_contract_witness :
  forward_catalog !! "" = None ∧ acyclic forward_catalog ∧
  forward_catalog !! "X" = Some recipe_X ∧
  (∃ z, tc (requires forward_catalog) "X" z ∧ forward_catalog !! z = None) ∧
  ∃ fuel0 z,
    tc (requires forward_catalog) "X" z ∧ forward_catalog !! z = None ∧
    ∀ fuel, fuel0 ≤ fuel →
      Summarize fuel "X" forward_catalog =
        (Responded (Status400 (DanglingReference z)), forward_catalog).
Proof.
  assert (∃ z, tc (requires forward_catalog) "X" z ∧ forward_catalog !! z = None)
    as Hdangling.
  { exists "Y". split; [|by vm_compute]. apply tc_once.
    exists (Recipe "X" [RequiredItem "Y" 2]). split; [by vm_compute|]. by left. }
  split; [by vm_compute|].
  split; [apply reachable_is_acyclic, reachable_forward_catalog|].
  split; [by vm_compute|]. split; [exact Hdangling|].
  destruct Summarize_error_contract as (_ & _ & Hcontract).
  apply (Hcontract forward_catalog "X" (Recipe "X" [RequiredItem "Y" 2]));
    [by vm_compute|apply reachable_is_acyclic, reachable_forward_catalog|by vm_compute
    |exact Hdangling].
Defined.

Lemma forward_references_are_legal_witness :
  well_formed recipe_X ∧ (∅ : Cookbook) !! "X" = None ∧
  AddEntry 0 (body recipe_X) ∅ = (Responded Status200, forward_catalog).
Proof.
  split; [apply well_formed_recipe_X|]. split; [done|].
  apply (forward_references_are_legal ∅ (Recipe "X" [RequiredItem "Y" 2]) 0);
    [apply well_formed_recipe_X|done|].
  intros it _ [e He]. by rewrite lookup_empty in He.
Defined.

Lemma loops_terminate_witness :
  acyclic shared_catalog ∧
  (∃ fuel b, ∀ fuel', fuel ≤ fuel' → isReachable fuel' "R" "N" shared_catalog = Normal b) ∧
  (∃ fuel, ∀ fuel', fuel ≤ fuel' →
     ∃ reply, (Summarize fuel' "R" shared_catalog).1 = Responded reply).
Proof.
  assert (acyclic shared_catalog) as Hacyclic
    by apply reachable_is_acyclic, reachable_shared_catalog.
  split; [exact Hacyclic|].
  destruct (loops_terminate shared_catalog Hacyclic) as (HisReachable & _ & HSummarize).
  split; [|apply HSummarize].
  apply HisReachable. exists recipe_R. vm_compute. reflexivity.
Defined.

Lemma last_write_wins_witness :
  well_formed (IsRecipe recipe_W) ∧ (∅ : Cookbook) !! "W" = None ∧
  ∃ kept,
    AddEntry 0 (body (IsRecipe recipe_W)) ∅ =
      (Responded Status200, <["W" := IsRecipe (Recipe "W" kept)]> ∅) ∧
    NoDup (item_name <$> kept) ∧
    (∀ n, n ∈ item_name <$> requiredItems recipe_W → n ∈ item_name <$> kept) ∧
    (∀ n q, RequiredItem n q ∈ kept ↔ last_quantity n (requiredItems recipe_W) = Some q).
Proof.
  split; [apply well_formed_recipe_W|]. split; [done|].
  apply (last_write_wins ∅ recipe_W 0); [apply well_formed_recipe_W|done|].
  intros it _ [e He]. by rewrite lookup_empty in He.
Defined.

Lemma isReachable_guarded_witness :
  forward_catalog !! "Y" = None ∧
  isReachable 5 "Y" "X" forward_catalog = Thrown SrcNotInCookbook ∧
  reachable forward_catalog ∧
  ∃ fuel b, ∀ fuel', fuel ≤ fuel' → cycle_check fuel' "X" "Y" forward_catalog = Normal b.
Proof.
  destruct isReachable_guarded as (Hpartial & _ & Htotal).
  split; [by vm_compute|].
  split; [apply Hpartial; by vm_compute|].
  split; [apply reachable_forward_catalog|].
  apply Htotal, reachable_forward_catalog.
Defined.

(** * Further properties *)

(** ** Characters *)

Ltac by_ascii_cases :=
  let c := fresh "c" in
  intros c; destruct c as [[] [] [] [] [] [] [] []]; vm_compute;
  repeat split; try discriminate; try reflexivity; try (intros; discriminate).

Lemma separator_not_letter : ∀ c, is_separator c = true → is_letter c = false.
Proof. by_ascii_cases. Qed.

Lemma letter_not_whitespace : ∀ c, is_letter c = true → is_whitespace c = false.
Proof. by_ascii_cases. Qed.

Lemma space_is_whitespace : ∀ c, is_space c = true → is_whitespace c = true.
Proof. by_ascii_cases. Qed.

Lemma letter_not_space : ∀ c, is_letter c = true → is_space c = false.
Proof. by_ascii_cases. Qed.

Lemma is_letter_lower_char : ∀ c, is_letter (lower_char c) = is_letter c.
Proof. by_ascii_cases. Qed.

Lemma is_letter_upper_char : ∀ c, is_letter (upper_char c) = is_letter c.
Proof. by_ascii_cases. Qed.

Lemma is_lower_lower_char : ∀ c, is_letter c = true → is_lower (lower_char c) = true.
Proof. by_ascii_cases. Qed.

Lemma is_upper_upper_char : ∀ c, is_letter c = true → is_upper (upper_char c) = true.
Proof. by_ascii_cases. Qed.

Lemma lower_char_upper_char : ∀ c, lower_char (upper_char c) = lower_char c.
Proof. by_ascii_cases. Qed.

Lemma lower_char_idem : ∀ c, lower_char (lower_char c) = lower_char c.
Proof. by_ascii_cases. Qed.

Lemma is_space_lower_char : ∀ c, is_space (lower_char c) = is_space c.
Proof. by_ascii_cases. Qed.

Lemma is_space_upper_char : ∀ c, is_space (upper_char c) = is_space c.
Proof. by_ascii_cases. Qed.

Lemma word_char_of_letter_or_space :
  ∀ c, is_letter_or_space c = true → is_word_char c = is_letter c.
Proof. by_ascii_cases. Qed.

Lemma whitespace_of_letter_or_space :
  ∀ c, is_letter_or_space c = true → is_whitespace c = is_space c.
Proof. by_ascii_cases. Qed.

Lemma not_letter_or_space_spec :
  ∀ c, is_not_letter_or_space c = negb (is_letter_or_space c).
Proof. by_ascii_cases. Qed.

Lemma separator_or_letter_kept :
  ∀ c, is_separator c = false → is_letter c = true → is_letter_or_space c = true.
Proof. by_ascii_cases. Qed.

(** ** [parse_handwriting] *)

Lemma replace_runs_empty class in_run s :
  replace_runs class "" in_run s = string_filter (λ c, negb (class c)) s.
Proof.
  revert in_run. induction s as [|c s IH]; intros in_run; simpl; [done|].
  destruct (class c); simpl; [|by rewrite IH].
  destruct in_run; by rewrite IH.
Qed.

Lemma letters_replace_separators in_run s :
  letters (replace_runs is_separator " " in_run s) = letters s.
Proof.
  unfold letters. revert in_run. induction s as [|c s IH]; intros in_run; simpl; [done|].
  destruct (is_separator c) eqn:Hsep.
  - rewrite (separator_not_letter c Hsep). destruct in_run; exact (IH true).
  - simpl. by rewrite IH.
Qed.

Lemma string_filter_filter p q s :
  (∀ c, p c = true → q c = true) →
  string_filter p (string_filter q s) = string_filter p s.
Proof.
  intros Hpq. induction s as [|c s IH]; simpl; [done|].
  destruct (q c) eqn:Hq; simpl.
  - by rewrite IH.
  - destruct (p c) eqn:Hp; [|done]. apply Hpq in Hp. congruence.
Qed.

Lemma string_forall_filter p s : string_forall p (string_filter p s) = true.
Proof.
  induction s as [|c s IH]; simpl; [done|].
  destruct (p c) eqn:Hp; simpl; [by rewrite Hp|done].
Qed.

Lemma string_forall_impl p q s :
  (∀ c, p c = true → q c = true) → string_forall p s = true → string_forall q s = true.
Proof.
  intros Hpq. induction s as [|c s IH]; simpl; [done|].
  intros [Hc Hs]%andb_true_iff. rewrite (Hpq c Hc). by apply IH.
Qed.

Lemma string_filter_id p s : string_forall p s = true → string_filter p s = s.
Proof.
  induction s as [|c s IH]; simpl; [done|].
  intros [-> Hs]%andb_true_iff. by rewrite IH.
Qed.

Lemma letters_toLowerCase s : letters (toLowerCase s) = toLowerCase (letters s).
Proof.
  unfold letters. induction s as [|c s IH]; simpl; [done|].
  rewrite is_letter_lower_char. destruct (is_letter c); simpl; by rewrite IH.
Qed.

Lemma string_forall_toLowerCase s :
  string_forall is_letter_or_space s = true →
  string_forall is_letter_or_space (toLowerCase s) = true.
Proof.
  induction s as [|c s IH]; simpl; [done|].
  intros [Hc Hs]%andb_true_iff. rewrite IH by done.
  unfold is_letter_or_space in *. by rewrite is_letter_lower_char, is_space_lower_char, Hc.
Qed.

Lemma letters_trimStart s : letters (trimStart s) = letters s.
Proof.
  unfold letters. induction s as [|c s IH]; simpl; [done|].
  destruct (is_whitespace c) eqn:Hws; [|done].
  destruct (is_letter c) eqn:Hl; [|done].
  apply letter_not_whitespace in Hl. congruence.
Qed.

Lemma trimEnd_empty s : trimEnd s = "" ↔ string_forall is_whitespace s = true.
Proof.
  induction s as [|c s IH]; simpl; [done|].
  destruct (trimEnd s) eqn:Htrim.
  - destruct (is_whitespace c); simpl; [|done]. split; [intros _; by apply IH|done].
  - split; [done|]. intros [_ Hs]%andb_true_iff. by apply IH in Hs.
Qed.

Lemma letters_trimEnd s : letters (trimEnd s) = letters s.
Proof.
  unfold letters. induction s as [|c s IH]; simpl; [done|].
  destruct (trimEnd s) eqn:Htrim; simpl in *.
  - destruct (is_whitespace c) eqn:Hws, (is_letter c) eqn:Hl; simpl; rewrite ?Hl, <-?IH; try done.
    apply letter_not_whitespace in Hl. congruence.
  - destruct (is_letter c); by rewrite <-IH.
Qed.

Lemma letters_trim s : letters (trim s) = letters s.
Proof. unfold trim. by rewrite letters_trimEnd, letters_trimStart. Qed.

Lemma string_forall_trimStart p s :
  string_forall p s = true → string_forall p (trimStart s) = true.
Proof.
  induction s as [|c s IH]; simpl; [done|].
  intros [Hc Hs]%andb_true_iff. destruct (is_whitespace c); [by apply IH|].
  simpl. by rewrite Hc, Hs.
Qed.

Lemma string_forall_trimEnd p s :
  string_forall p s = true → string_forall p (trimEnd s) = true.
Proof.
  induction s as [|c s IH]; simpl; [done|].
  intros [Hc Hs]%andb_true_iff. specialize (IH Hs).
  destruct (trimEnd s); [destruct (is_whitespace c)|]; simpl in *; by rewrite ?Hc.
Qed.

Lemma string_forall_trim p s :
  string_forall p s = true → string_forall p (trim s) = true.
Proof. intros Hs. by apply string_forall_trimEnd, string_forall_trimStart. Qed.

Lemma letters_empty s :
  letters s = "" ↔ string_forall (λ c, negb (is_letter c)) s = true.
Proof.
  unfold letters. induction s as [|c s IH]; simpl; [done|].
  destruct (is_letter c); simpl; [done|]. apply IH.
Qed.

Lemma trimStart_empty s : trimStart s = "" ↔ string_forall is_whitespace s = true.
Proof.
  induction s as [|c s IH]; simpl; [done|].
  destruct (is_whitespace c); simpl; [done|]. split; done.
Qed.

Lemma trim_empty s : trim s = "" ↔ string_forall is_whitespace s = true.
Proof.
  unfold trim. rewrite trimEnd_empty. split.
  - induction s as [|c s IH]; simpl; [done|].
    destruct (is_whitespace c) eqn:Hws; simpl; [done|]. by rewrite Hws.
  - by apply string_forall_trimStart.
Qed.

(** For a string of letters and spaces: blank means without letters. *)
Lemma blank_iff_no_letters s :
  string_forall is_letter_or_space s = true →
  string_forall is_whitespace s = true ↔ letters s = "".
Proof.
  unfold letters. induction s as [|c s IH]; simpl; [done|].
  intros [Hc Hs]%andb_true_iff. specialize (IH Hs).
  rewrite (whitespace_of_letter_or_space c Hc).
  unfold is_letter_or_space in Hc.
  destruct (is_letter c) eqn:Hl; simpl in *.
  - rewrite (letter_not_space c Hl). done.
  - rewrite Hc. done.
Qed.

Lemma letters_capitalize after_word s :
  toLowerCase (letters (capitalize after_word s)) = toLowerCase (letters s).
Proof.
  unfold letters. revert after_word. induction s as [|c s IH]; intros after_word; simpl; [done|].
  destruct (negb after_word && is_letter c) eqn:Hcap.
  - rewrite is_letter_upper_char.
    destruct (is_letter c); simpl; rewrite ?lower_char_upper_char; by rewrite IH.
  - destruct (is_letter c); simpl; by rewrite IH.
Qed.

Lemma parse_handwriting_unfold recipeName :
  parse_handwriting recipeName =
    match trim (normalized recipeName) with
    | EmptyString => None
    | trimmed => Some (capitalize false trimmed)
    end.
Proof. done. Qed.

Lemma normalized_letters_or_spaces s :
  string_forall is_letter_or_space (normalized s) = true.
Proof.
  unfold normalized. apply string_forall_toLowerCase.
  rewrite replace_runs_empty.
  erewrite (string_forall_impl (λ c, negb (is_not_letter_or_space c))); [done| |].
  - intros c. rewrite not_letter_or_space_spec. by rewrite negb_involutive.
  - apply string_forall_filter.
Qed.

Lemma letters_normalized s : letters (normalized s) = toLowerCase (letters s).
Proof.
  unfold normalized. rewrite letters_toLowerCase. f_equal.
  rewrite replace_runs_empty. unfold letters at 1.
  rewrite string_filter_filter.
  - apply letters_replace_separators.
  - intros c Hc. rewrite not_letter_or_space_spec, negb_involutive.
    unfold is_letter_or_space. by rewrite Hc.
Qed.

Lemma toLowerCase_empty s : toLowerCase s = "" ↔ s = "".
Proof. by destruct s. Qed.

Lemma lower_or_space_of_lower_char :
  ∀ c, is_letter_or_space c = true → is_lower_or_space (lower_char c) = true.
Proof. by_ascii_cases. Qed.

Lemma lower_or_space_letter :
  ∀ c, is_lower_or_space c = true → is_letter c = true → is_lower c = true.
Proof. by_ascii_cases. Qed.

Lemma lower_or_space_is_letter_or_space :
  ∀ c, is_lower_or_space c = true → is_letter_or_space c = true.
Proof. by_ascii_cases. Qed.

Lemma not_separator_not_space : ∀ c, is_separator c = false → is_space c = false.
Proof. by_ascii_cases. Qed.

Lemma letter_or_separator_kept :
  ∀ c, is_separator c = false → is_letter_or_separator c = true →
       is_letter_or_space c = true.
Proof. by_ascii_cases. Qed.

Lemma toLowerCase_idem s : toLowerCase (toLowerCase s) = toLowerCase s.
Proof. induction s as [|c s IH]; simpl; [done|]. by rewrite lower_char_idem, IH. Qed.

Lemma normalized_lower_or_space s :
  string_forall is_lower_or_space (normalized s) = true.
Proof.
  pose proof (normalized_letters_or_spaces s) as Hall. unfold normalized in *.
  set (t := replace_runs _ _ _ _) in *.
  assert (string_forall is_letter_or_space t = true) as Ht.
  { subst t. rewrite replace_runs_empty.
    eapply string_forall_impl; [|apply string_forall_filter].
    intros c. simpl. by rewrite not_letter_or_space_spec, negb_involutive. }
  clear Hall. induction t as [|c t IH]; simpl in *; [done|].
  apply andb_true_iff in Ht as [Hc Ht].
  by rewrite lower_or_space_of_lower_char, IH.
Qed.

(** *** What [trim] leaves at both ends *)

Lemma first_char_trimStart s c :
  first_char (trimStart s) = Some c → is_whitespace c = false.
Proof.
  induction s as [|d s IH]; simpl; [done|].
  destruct (is_whitespace d) eqn:Hd; [done|]. simpl. by intros [= <-].
Qed.

Lemma first_char_trimEnd s c :
  first_char s = Some c → is_whitespace c = false → first_char (trimEnd s) = Some c.
Proof.
  destruct s as [|d s]; simpl; [done|]. intros [= ->] Hc.
  destruct (trimEnd s); [by rewrite Hc|done].
Qed.

Lemma last_char_trimEnd s c :
  last_char (trimEnd s) = Some c → is_whitespace c = false.
Proof.
  induction s as [|d s IH]; simpl; [done|].
  destruct (trimEnd s) as [|e t] eqn:Htrim.
  - destruct (is_whitespace d) eqn:Hd; simpl; [done|]. by intros [= <-].
  - change (last_char (String d (String e t)))
      with (match last_char (String e t) with None => Some d | Some x => Some x end).
    destruct (last_char (String e t)) eqn:Hlast;
      [|simpl in Hlast; by destruct (last_char t)].
    intros [= <-]. by apply IH.
Qed.

Lemma first_char_trim s c : first_char (trim s) = Some c → is_whitespace c = false.
Proof.
  unfold trim. intros Hfirst.
  destruct (first_char (trimStart s)) as [d|] eqn:Hstart.
  - pose proof (first_char_trimStart s d Hstart) as Hd.
    rewrite (first_char_trimEnd _ d Hstart Hd) in Hfirst. by simplify_eq.
  - destruct (trimStart s); done.
Qed.

Lemma last_char_trim s c : last_char (trim s) = Some c → is_whitespace c = false.
Proof. apply last_char_trimEnd. Qed.

(** *** What [capitalize] changes *)

Lemma string_forall_capitalize after_word s :
  string_forall is_letter_or_space s = true →
  string_forall is_letter_or_space (capitalize after_word s) = true.
Proof.
  revert after_word. induction s as [|c s IH]; intros after_word; simpl; [done|].
  intros [Hc Hs]%andb_true_iff. rewrite IH by done.
  destruct (negb after_word && is_letter c); [|by rewrite Hc].
  unfold is_letter_or_space in *.
  by rewrite is_letter_upper_char, is_space_upper_char, Hc.
Qed.

Lemma first_char_capitalize after_word s c :
  first_char (capitalize after_word s) = Some c →
  ∃ d, first_char s = Some d ∧ is_letter c = is_letter d ∧ is_space c = is_space d.
Proof.
  destruct s as [|d s]; simpl; [done|]. intros [= <-]. exists d. split; [done|].
  destruct (negb after_word && is_letter d);
    by rewrite ?is_letter_upper_char, ?is_space_upper_char.
Qed.

Lemma last_char_capitalize after_word s c :
  last_char (capitalize after_word s) = Some c →
  ∃ d, last_char s = Some d ∧ is_letter c = is_letter d ∧ is_space c = is_space d.
Proof.
  revert after_word c. induction s as [|e s IH]; intros after_word c; simpl; [done|].
  destruct (last_char (capitalize (is_word_char e) s)) as [x|] eqn:Hlast.
  - intros [= <-]. destruct (IH _ _ Hlast) as (d & -> & Hd). by exists d.
  - intros [= <-]. assert (s = "") as ->.
    { destruct s as [|x s]; [done|]. simpl in Hlast. by case_match. }
    simpl. exists e.
    split; [done|].
    destruct (negb after_word && is_letter e);
      by rewrite ?is_letter_upper_char, ?is_space_upper_char.
Qed.

Lemma title_cased_capitalize flag s :
  string_forall is_lower_or_space s = true →
  title_cased flag (capitalize flag s) = true.
Proof.
  revert flag. induction s as [|c s IH]; intros flag; simpl; [done|].
  intros [Hc Hs]%andb_true_iff.
  pose proof (lower_or_space_is_letter_or_space c Hc) as Hc'.
  rewrite (word_char_of_letter_or_space c Hc').
  destruct (is_letter c) eqn:Hl, flag; simpl;
    rewrite ?is_letter_upper_char, ?Hl; simpl; rewrite ?IH by done;
    rewrite ?andb_true_r; try done.
  - by apply lower_or_space_letter.
  - by apply is_upper_upper_char.
Qed.

(** *** Single spaces *)

Lemma single_spaced_weaken s : single_spaced true s = true → single_spaced false s = true.
Proof. destruct s as [|c s]; simpl; [done|]. by intros [_ ->]%andb_true_iff. Qed.

Lemma single_spaced_replace_separators in_run s :
  single_spaced in_run (replace_runs is_separator " " in_run s) = true.
Proof.
  revert in_run. induction s as [|c s IH]; intros in_run; simpl; [done|].
  destruct (is_separator c) eqn:Hsep.
  - destruct in_run; [apply IH|]. exact (IH true).
  - simpl. rewrite (not_separator_not_space c Hsep), andb_false_r. simpl. apply IH.
Qed.

Lemma string_forall_replace_separators in_run s :
  string_forall is_letter_or_separator s = true →
  string_forall is_letter_or_space (replace_runs is_separator " " in_run s) = true.
Proof.
  revert in_run. induction s as [|c s IH]; intros in_run; simpl; [done|].
  intros [Hc Hs]%andb_true_iff.
  destruct (is_separator c) eqn:Hsep.
  - destruct in_run; [by apply IH|]. exact (IH true Hs).
  - simpl. by rewrite (letter_or_separator_kept c Hsep Hc), IH.
Qed.

Lemma single_spaced_toLowerCase flag s :
  single_spaced flag (toLowerCase s) = single_spaced flag s.
Proof.
  revert flag. induction s as [|c s IH]; intros flag; simpl; [done|].
  by rewrite is_space_lower_char, IH.
Qed.

Lemma single_spaced_trimStart flag s :
  single_spaced flag s = true → single_spaced false (trimStart s) = true.
Proof.
  revert flag. induction s as [|c s IH]; intros flag; simpl; [done|].
  intros [Hc Hs]%andb_true_iff. destruct (is_whitespace c); [by eapply IH|].
  simpl. by rewrite Hs.
Qed.

Lemma single_spaced_trimEnd flag s :
  single_spaced flag s = true → single_spaced flag (trimEnd s) = true.
Proof.
  revert flag. induction s as [|c s IH]; intros flag; simpl; [done|].
  intros [Hc Hs]%andb_true_iff. specialize (IH _ Hs).
  destruct (trimEnd s) as [|e t]; [destruct (is_whitespace c)|]; simpl in *;
    rewrite ?Hc; simpl; try done.
Qed.

Lemma single_spaced_capitalize after_word flag s :
  single_spaced flag (capitalize after_word s) = single_spaced flag s.
Proof.
  revert after_word flag. induction s as [|c s IH]; intros after_word flag; simpl; [done|].
  destruct (negb after_word && is_letter c); rewrite ?is_space_upper_char; by rewrite IH.
Qed.

Lemma parse_handwriting_Some s r :
  parse_handwriting s = Some r →
  r = capitalize false (trim (normalized s)) ∧ trim (normalized s) ≠ "".
Proof.
  rewrite parse_handwriting_unfold. destruct (trim (normalized s)); [done|].
  by intros [= <-].
Qed.

Lemma first_char_forall p s c :
  string_forall p s = true → first_char s = Some c → p c = true.
Proof. destruct s; simpl; [done|]. by intros [? _]%andb_true_iff [= <-]. Qed.

Lemma last_char_forall p s c :
  string_forall p s = true → last_char s = Some c → p c = true.
Proof.
  induction s as [|d s IH]; simpl; [done|].
  intros [Hd Hs]%andb_true_iff. destruct (last_char s); intros [= <-]; auto.
Qed.

Lemma parse_handwriting_None s : parse_handwriting s = None ↔ letters s = "".
Proof.
  rewrite parse_handwriting_unfold.
  transitivity (trim (normalized s) = "").
  { destruct (trim (normalized s)); split; done. }
  rewrite trim_empty, (blank_iff_no_letters _ (normalized_letters_or_spaces s)).
  by rewrite letters_normalized, toLowerCase_empty.
Qed.

Lemma parse_handwriting_not_empty s r : parse_handwriting s = Some r → r ≠ "".
Proof.
  intros [-> Hne]%parse_handwriting_Some. by destruct (trim (normalized s)).
Qed.

(** X1. [parse_handwriting] returns [null] exactly for the strings
    without an ASCII letter: the empty string, separators, digits,
    punctuation and characters outside ASCII in any number. *)
Theorem parse_handwriting_null_iff_no_letters :
  ∀ recipeName, parse_handwriting recipeName = None ↔ letters recipeName = "".
Proof. intros recipeName. apply parse_handwriting_None. Qed.

(** X2. A name that [parse_handwriting] returns holds letters and spaces
    only, and starts and ends with a letter. *)
Theorem parse_handwriting_shape :
  ∀ recipeName parsed,
    parse_handwriting recipeName = Some parsed →
    string_forall is_letter_or_space parsed = true ∧
    is_letter <$> first_char parsed = Some true ∧
    is_letter <$> last_char parsed = Some true.
Proof.
  intros s r [-> Hne]%parse_handwriting_Some.
  set (t := trim (normalized s)) in *.
  assert (string_forall is_letter_or_space t = true) as Ht
    by apply string_forall_trim, normalized_letters_or_spaces.
  split; [by apply string_forall_capitalize|]. split.
  - destruct (first_char (capitalize false t)) as [c|] eqn:Hfirst;
      [|by destruct t].
    destruct (first_char_capitalize _ _ _ Hfirst) as (d & Hd & Hletter & _).
    simpl. f_equal. rewrite Hletter.
    pose proof (first_char_trim _ _ Hd) as Hws.
    pose proof (first_char_forall _ _ _ Ht Hd) as Hls.
    rewrite (whitespace_of_letter_or_space d Hls) in Hws.
    unfold is_letter_or_space in Hls. rewrite Hws, orb_false_r in Hls. done.
  - destruct (last_char (capitalize false t)) as [c|] eqn:Hlast.
    2:{ destruct t as [|x t]; [done|]. simpl in Hlast. by case_match. }
    destruct (last_char_capitalize _ _ _ Hlast) as (d & Hd & Hletter & _).
    simpl. f_equal. rewrite Hletter.
    pose proof (last_char_trim _ _ Hd) as Hws.
    pose proof (last_char_forall _ _ _ Ht Hd) as Hls.
    rewrite (whitespace_of_letter_or_space d Hls) in Hws.
    unfold is_letter_or_space in Hls. rewrite Hws, orb_false_r in Hls. done.
Qed.

(** X3. A name that [parse_handwriting] returns is in title case: a
    letter at the start or after a space is upper case, a letter after a
    letter is lower case, whatever the case of the input. *)
Theorem parse_handwriting_title_case :
  ∀ recipeName parsed,
    parse_handwriting recipeName = Some parsed → title_cased false parsed = true.
Proof.
  intros s r [-> _]%parse_handwriting_Some.
  apply title_cased_capitalize, string_forall_trim, normalized_lower_or_space.
Qed.

(** X4. [parse_handwriting] keeps the letters of its input, all of them
    and in their order; it only changes their case. *)
Theorem parse_handwriting_keeps_letters :
  ∀ recipeName parsed,
    parse_handwriting recipeName = Some parsed →
    toLowerCase (letters parsed) = toLowerCase (letters recipeName).
Proof.
  intros s r [-> _]%parse_handwriting_Some.
  by rewrite letters_capitalize, letters_trim, letters_normalized, toLowerCase_idem.
Qed.

(** X5. When the input holds letters and the separators [-], [_] and
    space only, the words of the returned name are separated by single
    spaces. *)
Theorem parse_handwriting_single_spaces :
  ∀ recipeName parsed,
    string_forall is_letter_or_separator recipeName = true →
    parse_handwriting recipeName = Some parsed →
    single_spaced false parsed = true.
Proof.
  intros s r Hclean [-> _]%parse_handwriting_Some.
  rewrite single_spaced_capitalize. unfold trim.
  apply single_spaced_trimEnd, (single_spaced_trimStart false).
  unfold normalized. rewrite single_spaced_toLowerCase, replace_runs_empty.
  rewrite string_filter_id.
  - apply single_spaced_replace_separators.
  - eapply string_forall_impl; [|by apply string_forall_replace_separators].
    intros c. simpl. by rewrite not_letter_or_space_spec, negb_involutive.
Qed.

(** X6. [POST /parse] answers with the parsed name, which is never empty,
    when [input] is a string with a letter; it answers 400 exactly when
    [input] is a string without letters; and it throws, instead of
    answering 400, exactly when [input] is not a string. *)
Theorem Parse_replies :
  ∀ body,
    (∀ msg, Parse body = ParseOk msg ↔
            ∃ input, prop body "input" = Some (JStr input) ∧
                     parse_handwriting input = Some msg ∧ msg ≠ "") ∧
    (Parse body = ParseCooked ↔
       ∃ input, prop body "input" = Some (JStr input) ∧ letters input = "") ∧
    (Parse body = ParseThrew ↔ ∀ input, prop body "input" ≠ Some (JStr input)).
Proof.
  intros body. unfold Parse.
  destruct (prop body "input") as [[| | | |input| |]|] eqn:Hinput;
    try (split; [|split]; [intros msg|..]; split;
         [done|by intros (? & ? & _)|done|by intros (? & ? & _)|done|done]).
  pose proof (parse_handwriting_None input) as Hnull.
  destruct (parse_handwriting input) as [parsed|] eqn:Hparsed.
  - split; [|split].
    + intros msg. split.
      * intros [= <-]. exists input. split; [done|]. split; [done|].
        by eapply parse_handwriting_not_empty.
      * intros (? & [= <-] & Hmsg & _). congruence.
    + split; [done|]. intros (? & [= <-] & Hletters). apply Hnull in Hletters. done.
    + split; [done|]. intros Hnot. by destruct (Hnot input).
  - split; [|split].
    + intros msg. split; [done|]. intros (? & [= <-] & Hmsg & _). congruence.
    + split; [|done]. intros _. exists input. split; [done|]. by apply Hnull.
    + split; [done|]. intros Hnot. by destruct (Hnot input).
Qed.

Lemma parse_handwriting_shape_witness :
  parse_handwriting "Riz@z RISO00tto!" = Some "Rizz Risotto" ∧
  string_forall is_letter_or_space "Rizz Risotto" = true ∧
  is_letter <$> first_char "Rizz Risotto" = Some true ∧
  is_letter <$> last_char "Rizz Risotto" = Some true.
Proof.
  split; [by vm_compute|].
  apply (parse_handwriting_shape "Riz@z RISO00tto!"). by vm_compute.
Defined.

Lemma parse_handwriting_title_case_witness :
  parse_handwriting "alpHa-alFRedo" = Some "Alpha Alfredo" ∧
  title_cased false "Alpha Alfredo" = true.
Proof.
  split; [by vm_compute|].
  apply (parse_handwriting_title_case "alpHa-alFRedo"). by vm_compute.
Defined.

Lemma parse_handwriting_keeps_letters_witness :
  parse_handwriting "Riz@z RISO00tto!" = Some "Rizz Risotto" ∧
  toLowerCase (letters "Rizz Risotto") = toLowerCase (letters "Riz@z RISO00tto!").
Proof.
  split; [by vm_compute|].
  apply (parse_handwriting_keeps_letters "Riz@z RISO00tto!"). by vm_compute.
Defined.

Lemma parse_handwriting_single_spaces_witness :
  string_forall is_letter_or_separator "  meat__ball-- -sub" = true ∧
  parse_handwriting "  meat__ball-- -sub" = Some "Meat Ball Sub" ∧
  single_spaced false "Meat Ball Sub" = true.
Proof.
  split; [by vm_compute|]. split; [by vm_compute|].
  apply (parse_handwriting_single_spaces "  meat__ball-- -sub"); by vm_compute.
Defined.

(** ** [isReachable] decides reachability *)

Section isReachable_true.
Context (cookbook : Cookbook) (dest : string).

(** Some name that the recipe lists leads to [dest]. *)
Let leads (r : recipe) : Prop :=
  ∃ q, q ∈ item_name <$> requiredItems r ∧ rtc (requires cookbook) q dest.

Lemma isReachable_while_true fuel stack :
  isReachable_while fuel cookbook dest stack = Normal true →
  ∃ r, r ∈ stack ∧ leads r.
Proof.
  revert stack. induction fuel as [|fuel IH]; intros stack; simpl; [done|].
  destruct stack as [|currentItem stack']; [done|].
  destruct (isReachable_for _ _ _ _) as [stack''|] eqn:Hfor.
  - intros (r & Hr & Hleads)%IH.
    apply isReachable_for_Some in Hfor as ->.
    apply elem_of_app in Hr as [Hr|Hr]; [|exists r; split; [by right|done]].
    rewrite elem_of_reverse in Hr.
    apply elem_of_child_recipes in Hr as (q & Hq & Hchild).
    exists currentItem. split; [by left|].
    destruct Hleads as (q' & Hq' & Hpath).
    exists q. split; [done|]. eapply rtc_l; [|done]. by exists r.
  - intros _. apply isReachable_for_None in Hfor.
    exists currentItem. split; [by left|]. by exists dest.
Qed.

Lemma isReachable_true fuel src :
  isReachable fuel src dest cookbook = Normal true →
  tc (requires cookbook) src dest.
Proof.
  unfold isReachable. destruct (cookbook !! src) as [[item|?]|] eqn:Hsrc; [|done..].
  intros (r & ->%list_elem_of_singleton & q & Hq & Hpath)%isReachable_while_true.
  eapply tc_rtc_r; [|done]. apply tc_once. by exists item.
Qed.
End isReachable_true.

(** X7. [isReachable] decides reachability in the requirement graph:
    whenever it returns, in any cookbook, it returns [true] exactly when
    a path of requirements leads from [src] to [dest]; and in a cookbook
    without cycles it returns for every [src] that is present. *)
Theorem isReachable_decides_reachability :
  ∀ cookbook src dest,
    (∀ fuel b,
        isReachable fuel src dest cookbook = Normal b →
        (b = true ↔ tc (requires cookbook) src dest)) ∧
    (acyclic cookbook →
     is_Some (cookbook !! src) →
     ∃ fuel b, ∀ fuel', fuel ≤ fuel' → isReachable fuel' src dest cookbook = Normal b).
Proof.
  intros cookbook src dest. split.
  - intros fuel [|] Hrun.
    + split; [intros _|done]. by eapply isReachable_true.
    + split; [done|]. intros Hpath. by eapply isReachable_false in Hpath.
  - intros Hacyclic Hsrc. by apply isReachable_total.
Qed.

Lemma isReachable_decides_reachability_witness :
  isReachable 5 "A" "L" shared_catalog = Normal true ∧
  acyclic shared_catalog ∧ is_Some (shared_catalog !! "A") ∧
  (true = true ↔ tc (requires shared_catalog) "A" "L") ∧
  ∃ fuel b, ∀ fuel', fuel ≤ fuel' → isReachable fuel' "A" "L" shared_catalog = Normal b.
Proof.
  assert (acyclic shared_catalog) as Hacyclic
    by apply reachable_is_acyclic, reachable_shared_catalog.
  assert (is_Some (shared_catalog !! "A")) as Hpresent
    by (exists recipe_A; vm_compute; reflexivity).
  destruct (isReachable_decides_reachability shared_catalog "A" "L") as [Hright Htotal].
  split; [by vm_compute|]. split; [done|]. split; [done|].
  split; [apply (Hright 5); by vm_compute|by apply Htotal].
Defined.

(** ** [POST /entry] accepts a recipe exactly when no cycle forms *)

Lemma collected_keys items m n :
  n ∈ OMap.keys (collected items m) ↔ n ∈ OMap.keys m ∨ n ∈ item_name <$> items.
Proof.
  revert m. induction items as [|it items IH]; intros m.
  - simpl. rewrite elem_of_nil. naive_solver.
  - change (collected (it :: items) m)
      with (collected items
              (OMap.set (item_name it) (RequiredItem (item_name it) (quantity it)) m)).
    rewrite IH, omap_keys_set, fmap_cons, elem_of_cons. naive_solver.
Qed.

Lemma stored_names r n :
  n ∈ item_name <$> entry_items (stored (IsRecipe r)) ↔ n ∈ item_name <$> requiredItems r.
Proof.
  simpl. rewrite keyed_values by (apply collected_keyed; constructor).
  rewrite collected_keys. unfold OMap.keys, OMap.empty. simpl.
  rewrite elem_of_nil. naive_solver.
Qed.

Lemma requires_insert_fresh cookbook n e a b :
  cookbook !! n = None →
  requires cookbook a b → requires (<[n := e]> cookbook) a b.
Proof.
  intros Hfresh (r & Hr & Hb). exists r. split; [|done].
  rewrite lookup_insert_ne; [done|]. intros ->. congruence.
Qed.

Lemma tc_requires_insert_fresh cookbook n e a b :
  cookbook !! n = None →
  tc (requires cookbook) a b → tc (requires (<[n := e]> cookbook)) a b.
Proof.
  intros Hfresh. induction 1 as [a b Hab|a c b Hac _ IH].
  - by apply tc_once, requires_insert_fresh.
  - eapply tc_l; [|done]. by apply requires_insert_fresh.
Qed.

Lemma cycle_check_true cookbook fuel entryName n :
  cycle_check fuel entryName n cookbook = Normal true →
  tc (requires cookbook) n entryName.
Proof.
  unfold cycle_check. case_bool_decide; [|done]. apply isReachable_true.
Qed.

(** X8. In a cookbook without cycles, [POST /entry] with the body of a
    well-formed recipe under a fresh name is answered with status 200 and
    stores the recipe exactly when the cookbook with that recipe has no
    cycle; otherwise it is refused with CycleDetected and stores nothing.
    The cycle check refuses no recipe that would be harmless. *)
Theorem AddEntry_accepts_iff_no_cycle :
  ∀ cookbook r,
    well_formed (IsRecipe r) →
    acyclic cookbook →
    cookbook !! recipe_name r = None →
    ∃ fuel0, ∀ fuel, fuel0 ≤ fuel →
      (acyclic (<[recipe_name r := stored (IsRecipe r)]> cookbook) ∧
       AddEntry fuel (body (IsRecipe r)) cookbook =
         (Responded Status200, <[recipe_name r := stored (IsRecipe r)]> cookbook)) ∨
      (¬ acyclic (<[recipe_name r := stored (IsRecipe r)]> cookbook) ∧
       ∃ n, AddEntry fuel (body (IsRecipe r)) cookbook =
              (Responded (Status400 (CycleDetected n)), cookbook)).
Proof.
  intros cookbook r Hwf Hacyclic Hfresh.
  destruct (cycle_checks_total cookbook (recipe_name r) (item_name <$> requiredItems r)
              Hacyclic) as (fuel0 & Hchecks).
  exists fuel0. intros fuel Hfuel.
  assert (AddEntry fuel (body (IsRecipe r)) cookbook =
            match find (λ it, found_cycle
                                (cycle_check fuel (recipe_name r) (item_name it) cookbook))
                       (requiredItems r) with
            | Some it => (Responded (Status400 (CycleDetected (item_name it))), cookbook)
            | None =>
                (Responded Status200, <[recipe_name r := stored (IsRecipe r)]> cookbook)
            end) as Hrun.
  { rewrite AddEntry_recipe by done. unfold andThen at 1.
    rewrite entry_for_checked; [|apply Hwf|].
    - by destruct (find _ _).
    - intros it Hit. apply (Hchecks fuel Hfuel). by apply list_elem_of_fmap_2. }
  destruct (find _ _) as [it|] eqn:Hfind.
  - right. split; [|by eauto].
    apply find_some in Hfind as [Hit%list_elem_of_In Hfound].
    assert (tc (requires cookbook) (item_name it) (recipe_name r)) as Hpath.
    { apply (cycle_check_true cookbook fuel).
      by destruct (cycle_check _ _ _ _) as [[|]| | |]. }
    intros Hnew. apply (Hnew (recipe_name r)).
    eapply tc_l; [|by apply tc_requires_insert_fresh].
    eexists. split; [apply lookup_insert_eq|].
    apply (stored_names r). by apply list_elem_of_fmap_2.
  - left. split; [|done]. by eapply (AddEntry_acyclic fuel _ cookbook).
Qed.

Lemma AddEntry_accepts_iff_no_cycle_witness :
  well_formed recipe_Y ∧ acyclic forward_catalog ∧ forward_catalog !! "Y" = None ∧
  ∃ fuel0, ∀ fuel, fuel0 ≤ fuel →
    (acyclic (<["Y" := stored recipe_Y]> forward_catalog) ∧
     AddEntry fuel (body recipe_Y) forward_catalog =
       (Responded Status200, <["Y" := stored recipe_Y]> forward_catalog)) ∨
    (¬ acyclic (<["Y" := stored recipe_Y]> forward_catalog) ∧
     ∃ n, AddEntry fuel (body recipe_Y) forward_catalog =
            (Responded (Status400 (CycleDetected n)), forward_catalog)).
Proof.
  split; [apply well_formed_recipe_Y|].
  split; [apply reachable_is_acyclic, reachable_forward_catalog|].
  split; [by vm_compute|].
  apply (AddEntry_accepts_iff_no_cycle forward_catalog (Recipe "Y" [RequiredItem "X" 1]));
    [apply well_formed_recipe_Y|apply reachable_is_acyclic, reachable_forward_catalog
    |by vm_compute].
Defined.

(** ** What [POST /entry] lets into the cookbook *)

Lemma last_quantity_Some n items q :
  last_quantity n items = Some q →
  ∃ it, it ∈ items ∧ item_name it = n ∧ quantity it = q.
Proof.
  unfold last_quantity. intros (it & Hlast & ->)%fmap_Some.
  apply last_Some_elem_of, list_elem_of_filter in Hlast as [Hname Hit]. eauto.
Qed.

Lemma collected_values_well_formed entryName items :
  Forall (well_formed_item entryName) items →
  Forall (well_formed_item entryName) (OMap.values (collected items OMap.empty)).
Proof.
  rewrite !Forall_forall. intros Hitems [n q] Hstored.
  apply collected_values, last_quantity_Some in Hstored as (it & Hit & Hn & Hq).
  destruct it as [n' q']. simpl in *. subst. by apply Hitems.
Qed.

Lemma collected_values_nonempty items :
  items ≠ [] → OMap.values (collected items OMap.empty) ≠ [].
Proof.
  destruct items as [|it items]; [done|]. intros _ Hempty.
  assert (item_name it ∈ OMap.keys (collected (it :: items) OMap.empty)) as Hin
    by (apply collected_keys; right; left).
  rewrite <-keyed_values in Hin by (apply collected_keyed; constructor).
  rewrite Hempty in Hin. by apply elem_of_nil in Hin.
Qed.

(** The loop of lines 97-117 ends normally only when every element of
    [requiredItems] is a valid item, and then holds what it collected
    from them. *)
Lemma entry_for_Normal_collected fuel entryName raw m cookbook m' cookbook' :
  entry_for fuel entryName raw m cookbook = (Normal m', cookbook') →
  Forall (valid_item entryName) raw ∧
  ∃ items, Forall2 (λ item it, item_of item = Some it) raw items ∧
           Forall (well_formed_item entryName) items ∧
           m' = collected items m.
Proof.
  revert m. induction raw as [|requiredItem rest IH]; intros m; simpl.
  - intros [= <- <-]. split; [constructor|]. exists []. by repeat constructor.
  - unfold andThen, read_prop, cookbook_has, call, pure, respond, throw.
    intros Hrun.
    repeat (case_match; simplify_eq/=; try done).
    all: apply IH in Hrun as (Hrest & items & Hitems & Hwf & ->).
    all: match goal with
         | H : _ || _ = false |- _ =>
             apply orb_false_elim in H
               as [Hname%bool_decide_eq_false Hself%bool_decide_eq_false]
         end.
    all: match goal with
         | Hn : prop ?item "name" = Some (JStr ?s),
           Hq : prop ?item "quantity" = Some (JNum ?q),
           Hpos : (?q <=? 0)%Z = false |- _ =>
             assert (item_of item = Some (RequiredItem s q)) as Hitem
               by (unfold item_of; by rewrite Hn, Hq);
             assert (well_formed_item entryName (RequiredItem s q)) as Hvalid
               by (repeat split; [done..|by apply Z.leb_gt])
         end.
    all: split; [constructor; [by eexists|done]|].
    all: eexists (_ :: items); split; [by constructor|]; split; [by constructor|done].
Qed.

Lemma AddEntry_200_valid fuel data cookbook cookbook' :
  AddEntry fuel data cookbook = (Responded Status200, cookbook') →
  ∃ e,
    cookbook' = <[entry_name e := e]> cookbook ∧
    cookbook !! entry_name e = None ∧
    prop data "name" = Some (JStr (entry_name e)) ∧
    valid_entry (entry_name e) e ∧
    valid_body data.
Proof.
  unfold AddEntry, andThen, read_prop, cookbook_has, cookbook_set, pure, respond, throw.
  intros Hrun.
  repeat (case_match; simplify_eq; try done).
  all: match goal with
       | H : bool_decide (_ = "") || _ = false |- _ =>
           apply orb_false_elim in H
             as [Hname%bool_decide_eq_false Hfresh%bool_decide_eq_false%eq_None_not_Some]
       end.
  all: match goal with
       | H : negb _ || negb (includes _ ?t) = false |- _ =>
           destruct t as [| | | |ty| |];
             try (simpl in H; rewrite ?orb_true_r in H; discriminate H)
       end.
  - match goal with
    | H : is_string _ _ = true |- _ => apply String.eqb_eq in H as ->
    end.
    match goal with
    | H : (_ <? 0)%Z = false |- _ => apply Z.ltb_ge in H
    end.
    eexists (IsIngredient (Ingredient _ _)). simpl.
    split; [reflexivity|]. split; [done|]. split; [done|].
    split; [by repeat split; try constructor|].
    eexists. split; [done|]. split; [done|]. left. eauto.
  - match goal with
    | H : entry_for _ _ _ _ _ = (Normal _, _) |- _ =>
        pose proof H as (-> & _ & _)%entry_for_Normal; [|constructor];
        apply entry_for_Normal_collected in H as (Hraw & items & Hitems & Hwf & ->)
    end.
    match goal with
    | H : negb _ || negb (includes _ (JStr ?ty)) = false |- _ =>
        apply orb_false_elim in H as [_ Hincl%negb_false_iff];
        simpl in Hincl; rewrite orb_false_r in Hincl;
        assert (ty = "recipe") as ->
          by (apply orb_true_iff in Hincl as [?%String.eqb_eq|?%String.eqb_eq];
              [done|by subst ty])
    end.
    assert (items ≠ []) as Hnonempty by (by inversion Hitems).
    eexists (IsRecipe (Recipe _ (OMap.values (collected items OMap.empty)))). simpl.
    split; [reflexivity|]. split; [done|]. split; [done|]. split.
    + split; [done|]. split.
      * split; [done|]. split;
          [by apply collected_values_nonempty|by apply collected_values_well_formed].
      * simpl. rewrite keyed_values by (apply collected_keyed; constructor).
        apply collected_NoDup. constructor.
    + eexists. split; [done|]. split; [done|]. right. split; [done|].
      eexists. split; [done|]. split; [done|]. done.
  - match goal with
    | H : entry_for _ _ _ _ _ = (Responded _, _) |- _ =>
        by apply entry_for_Responded in H as [why [=]]
    end.
Qed.

Lemma reachable_entries_valid cookbook k e :
  reachable cookbook → cookbook !! k = Some e → valid_entry k e.
Proof.
  intros Hreachable. revert k e.
  induction Hreachable as [|cookbook fuel data cookbook' _ IH Hadd]; intros k e.
  - by rewrite lookup_empty.
  - apply AddEntry_200_valid in Hadd as (e' & -> & _ & _ & Hvalid & _).
    rewrite lookup_insert. case_decide as Hk; [|by apply IH].
    intros [= <-]. by subst k.
Qed.

(** X9. Every entry of every cookbook the handlers can build is valid: it
    is stored under its own name, which is not empty; an ingredient has a
    cook time that is not negative; a recipe has at least one required
    item, no required name twice, never its own name, and only positive
    quantities. *)
Theorem stored_entries_are_valid :
  ∀ cookbook, reachable cookbook → ∀ k e, cookbook !! k = Some e → valid_entry k e.
Proof. intros cookbook Hreachable k e. by apply reachable_entries_valid. Qed.

(** X10. No request changes or removes an entry: whatever the body and
    the outcome of [POST /entry], every name bound in the cookbook before
    is bound to the same entry after; a request answered with status 200
    adds one entry, under a name that was free. *)
Theorem entries_are_never_overwritten :
  ∀ fuel data cookbook,
    cookbook ⊆ (AddEntry fuel data cookbook).2 ∧
    ((AddEntry fuel data cookbook).1 = Responded Status200 →
     size (AddEntry fuel data cookbook).2 = S (size cookbook)).
Proof.
  intros fuel data cookbook.
  destruct (AddEntry fuel data cookbook) as [c cookbook'] eqn:Hrun. simpl.
  assert (c = Responded Status200 →
          cookbook ⊆ cookbook' ∧ size cookbook' = S (size cookbook)) as H200.
  { intros ->. apply AddEntry_200 in Hrun as (e & -> & _ & Hfresh & _).
    split; [by apply insert_subseteq|by apply map_size_insert_None]. }
  split; [|by intros Hc; apply H200].
  pose proof (atomic_AddEntry fuel data cookbook) as [Hc|Hsame];
    rewrite Hrun in *; simpl in *; [by apply H200|by subst].
Qed.

(** X11. [POST /entry] answers with status 200 only to a valid body:
    type [recipe] or [ingredient], a name that is a non-empty string and
    free in the cookbook, and for an ingredient a number that is not
    negative as cook time, for a recipe a non-empty array of objects each
    with a non-empty string other than the entry's name as name and a
    positive number as quantity. One bad item refuses the whole recipe. *)
Theorem AddEntry_accepts_only_valid_bodies :
  ∀ fuel data cookbook cookbook',
    AddEntry fuel data cookbook = (Responded Status200, cookbook') →
    valid_body data ∧
    ∃ entryName, prop data "name" = Some (JStr entryName) ∧
                 cookbook !! entryName = None ∧ is_Some (cookbook' !! entryName).
Proof.
  intros fuel data cookbook cookbook' (e & -> & Hfresh & Hname & _ & Hbody)%AddEntry_200_valid.
  split; [done|]. exists (entry_name e). split; [done|]. split; [done|].
  rewrite lookup_insert_eq. by eexists.
Qed.

Lemma stored_entries_are_valid_witness :
  reachable shared_catalog ∧ shared_catalog !! "R" = Some recipe_R ∧
  valid_entry "R" recipe_R.
Proof.
  split; [apply reachable_shared_catalog|]. split; [by vm_compute|].
  apply (stored_entries_are_valid shared_catalog);
    [apply reachable_shared_catalog|by vm_compute].
Defined.

Lemma entries_are_never_overwritten_witness :
  (AddEntry 5 (body recipe_R) (delete "R" shared_catalog)).1 = Responded Status200 ∧
  delete "R" shared_catalog ⊆ (AddEntry 5 (body recipe_R) (delete "R" shared_catalog)).2 ∧
  size (AddEntry 5 (body recipe_R) (delete "R" shared_catalog)).2
    = S (size (delete "R" shared_catalog)).
Proof.
  assert ((AddEntry 5 (body recipe_R) (delete "R" shared_catalog)).1
          = Responded Status200) as H200 by (by vm_compute).
  destruct (entries_are_never_overwritten 5 (body recipe_R) (delete "R" shared_catalog))
    as [Hkept Hsize].
  split; [done|]. split; [done|]. by apply Hsize.
Defined.

Lemma AddEntry_accepts_only_valid_bodies_witness :
  AddEntry 0 (body recipe_X) ∅ = (Responded Status200, forward_catalog) ∧
  valid_body (body recipe_X) ∧
  ∃ entryName, prop (body recipe_X) "name" = Some (JStr entryName) ∧
               (∅ : Cookbook) !! entryName = None ∧
               is_Some (forward_catalog !! entryName).
Proof.
  assert (AddEntry 0 (body recipe_X) ∅ = (Responded Status200, forward_catalog)) as Hrun
    by (by vm_compute).
  split; [done|].
  apply (AddEntry_accepts_only_valid_bodies 0 (body recipe_X) ∅ forward_catalog Hrun).
Defined.

(** ** [POST /entry] ends, and what it throws *)

Lemma isReachable_mono fuel fuel' src dest cookbook :
  isReachable fuel src dest cookbook ≠ OutOfFuel →
  fuel ≤ fuel' →
  isReachable fuel' src dest cookbook = isReachable fuel src dest cookbook.
Proof.
  intros Hrun Hle.
  destruct (isReachable_cases fuel src dest cookbook) as [[b Hb]|[?|[Habsent _]]]; [|done|].
  - rewrite Hb. unfold isReachable in *.
    destruct (cookbook !! src) as [[item|?]|]; [|done..].
    by eapply isReachable_while_mono.
  - unfold isReachable. by rewrite Habsent.
Qed.

Lemma entry_for_mono fuel fuel' entryName raw m cookbook :
  (entry_for fuel entryName raw m cookbook).1 ≠ OutOfFuel →
  fuel ≤ fuel' →
  entry_for fuel' entryName raw m cookbook = entry_for fuel entryName raw m cookbook.
Proof.
  intros Hrun Hle. revert m Hrun.
  induction raw as [|requiredItem rest IH]; intros m; simpl; [done|].
  unfold andThen, read_prop, cookbook_has, call, pure, respond, throw.
  destruct (prop requiredItem "name") as [[| | | |s| |]|]; simpl; try done.
  destruct (prop requiredItem "quantity") as [quantity|]; simpl; [|done].
  destruct (bool_decide (s = "") || bool_decide (s = entryName)); [done|].
  destruct (bool_decide (is_Some (cookbook !! s))); simpl.
  - destruct (isReachable fuel s entryName cookbook) as [[|]| | |] eqn:Hcheck;
      intros Hrun; rewrite (isReachable_mono fuel fuel') by (done || congruence);
      rewrite Hcheck; try done.
    destruct quantity as [| | |q| | |]; try done.
    destruct (q <=? 0)%Z; [done|]. by apply IH.
  - destruct quantity as [| | |q| | |]; try done.
    destruct (q <=? 0)%Z; [done|]. apply IH.
Qed.

Lemma entry_for_ends cookbook entryName raw :
  acyclic cookbook →
  ∃ fuel0, ∀ fuel m, fuel0 ≤ fuel →
    (entry_for fuel entryName raw m cookbook).1 ≠ OutOfFuel.
Proof.
  intros Hacyclic. induction raw as [|requiredItem rest (fuel1 & IH)].
  - by exists 0.
  - assert (∃ fuel2, ∀ fuel s, fuel2 ≤ fuel →
              prop requiredItem "name" = Some (JStr s) →
              ∃ b, cycle_check fuel entryName s cookbook = Normal b) as (fuel2 & Hcheck).
    { destruct (prop requiredItem "name") as [[| | | |s| |]|]; try by exists 0.
      destruct (cycle_check_total cookbook entryName s Hacyclic) as (fuel2 & b & Hcheck).
      exists fuel2. intros fuel ? Hle [= <-]. exists b. by apply Hcheck. }
    exists (fuel1 `max` fuel2). intros fuel m Hle.
    simpl. unfold andThen, read_prop, cookbook_has, call, pure, respond, throw.
    destruct (prop requiredItem "name") as [[| | | |s| |]|]; simpl;
      destruct (prop requiredItem "quantity") as [quantity|]; simpl; try done.
    destruct (Hcheck fuel s) as [b Hb]; [lia|done|]. unfold cycle_check in Hb.
    destruct (bool_decide (s = "") || bool_decide (s = entryName)); [done|].
    destruct (bool_decide (is_Some (cookbook !! s))); simpl; rewrite ?Hb.
    + destruct b; [done|].
      destruct quantity as [| | |q| | |]; try done.
      destruct (q <=? 0)%Z; [done|]. apply IH. lia.
    + destruct quantity as [| | |q| | |]; try done.
      destruct (q <=? 0)%Z; [done|]. apply IH. lia.
Qed.

(** [POST /entry] runs the loop of lines 97-117 at most once, on the name
    and the items of its body. *)
Lemma AddEntry_via_entry_for data cookbook :
  (∀ fuel,
      (entry_for fuel (body_name data) (body_items data) OMap.empty cookbook).1
        ≠ OutOfFuel →
      (AddEntry fuel data cookbook).1 ≠ OutOfFuel) ∧
  (∀ fuel fuel',
      entry_for fuel' (body_name data) (body_items data) OMap.empty cookbook
        = entry_for fuel (body_name data) (body_items data) OMap.empty cookbook →
      AddEntry fuel' data cookbook = AddEntry fuel data cookbook).
Proof.
  unfold AddEntry, body_name, body_items, andThen, read_prop, cookbook_has, cookbook_set,
    pure, respond, throw.
  destruct (prop data "type") as [entryType|]; simpl; [|done].
  destruct (negb (truthy entryType) || negb (includes _ entryType)); [done|].
  destruct (prop data "name") as [[| | | |entryName| |]|]; simpl; try done.
  destruct (bool_decide (entryName = "") || bool_decide (is_Some (cookbook !! entryName)));
    [done|].
  destruct (is_string entryType "ingredient").
  { destruct (prop data "cookTime") as [[| | |c| | |]|]; simpl; try done.
    by destruct (c <? 0)%Z. }
  destruct (prop data "requiredItems") as [[| | | | |raw|]|]; simpl; try done.
  destruct raw as [|item raw]; [done|].
  split.
  - intros fuel. by destruct (entry_for fuel _ _ _ _) as [[?|?|?|] ?].
  - by intros fuel fuel' ->.
Qed.

(** X12. In a cookbook without cycles [POST /entry] ends for every body,
    well formed or not: from some loop budget on it no longer runs out,
    and its outcome and the cookbook it leaves are the same for every
    larger budget. *)
Theorem AddEntry_always_ends :
  ∀ cookbook data,
    acyclic cookbook →
    ∃ fuel0,
      (AddEntry fuel0 data cookbook).1 ≠ OutOfFuel ∧
      ∀ fuel, fuel0 ≤ fuel → AddEntry fuel data cookbook = AddEntry fuel0 data cookbook.
Proof.
  intros cookbook data Hacyclic.
  destruct (entry_for_ends cookbook (body_name data) (body_items data) Hacyclic)
    as [fuel0 Hends].
  destruct (AddEntry_via_entry_for data cookbook) as [Hrun Hsame].
  exists fuel0. split; [by apply Hrun, Hends|].
  intros fuel Hle. apply Hsame, entry_for_mono; [by apply Hends|done].
Qed.

Lemma AddEntry_always_ends_witness :
  acyclic forward_catalog ∧
  ∃ fuel0,
    (AddEntry fuel0 (body recipe_Y) forward_catalog).1 ≠ OutOfFuel ∧
    ∀ fuel, fuel0 ≤ fuel →
      AddEntry fuel (body recipe_Y) forward_catalog
        = AddEntry fuel0 (body recipe_Y) forward_catalog.
Proof.
  assert (acyclic forward_catalog) as Hacyclic
    by apply reachable_is_acyclic, reachable_forward_catalog.
  split; [done|].
  apply (AddEntry_always_ends forward_catalog (body recipe_Y) Hacyclic).
Defined.







(** ** When [GET /summary] succeeds, and what it reports *)

Lemma Summarize_200 fuel name cookbook s cookbook' :
  Summarize fuel name cookbook = (Responded (Status200Json s), cookbook') →
  ∃ r ingredients,
    name ≠ "" ∧ cookbook !! name = Some (IsRecipe r) ∧ cookbook' = cookbook ∧
    summary_while fuel [name] (OMap.set name 1%Z OMap.empty) cookbook
      = (Normal ingredients, cookbook) ∧
    s = Summary name (summary_tally cookbook (OMap.entries ingredients) 0%Z []).1
                     (summary_tally cookbook (OMap.entries ingredients) 0%Z []).2.
Proof.
  intros Hrun.
  destruct (decide (name = "")) as [->|Hname]; [done|].
  destruct (cookbook !! name) as [[r|i]|] eqn:Hentry.
  - rewrite (Summarize_recipe _ _ r) in Hrun by done.
    pose proof (readonly_summary_while fuel [name] (OMap.set name 1%Z OMap.empty) cookbook)
      as Hsame.
    pose proof (summary_while_cases cookbook fuel [name] (OMap.set name 1%Z OMap.empty))
      as Hcases.
    destruct (summary_while _ _ _ _) as [[ingredients|reply|?|] cookbook''];
      simpl in *; simplify_eq.
    + exists r, ingredients. by repeat split.
    + destruct Hcases as [(? & [=] & _)|(? & ? & [=] & _)].
  - by rewrite (Summarize_ingredient _ _ i) in Hrun.
  - by rewrite Summarize_absent in Hrun.
Qed.

(** X14. In a cookbook without cycles, [GET /summary] of a recipe answers
    with a summary exactly when every name that the recipe transitively
    requires is in the cookbook. *)
Theorem Summarize_succeeds_iff_closed :
  ∀ cookbook name r,
    cookbook !! "" = None →
    acyclic cookbook →
    cookbook !! name = Some (IsRecipe r) →
    (∀ z, tc (requires cookbook) name z → is_Some (cookbook !! z)) ↔
    (∃ fuel s, Summarize fuel name cookbook = (Responded (Status200Json s), cookbook)).
Proof.
  intros cookbook name r Hempty Hacyclic Hr.
  assert (name ≠ "") as Hname by (intros ->; congruence).
  split.
  - intros Hclosed.
    destruct (summary_while_total cookbook [name] (OMap.set name 1%Z OMap.empty) Hacyclic)
      as [fuel Hends].
    specialize (Hends fuel (le_n _)).
    pose proof (readonly_summary_while fuel [name] (OMap.set name 1%Z OMap.empty) cookbook)
      as Hsame.
    pose proof (summary_while_cases cookbook fuel [name] (OMap.set name 1%Z OMap.empty))
      as Hcases.
    exists fuel. rewrite (Summarize_recipe _ _ r) by done.
    destruct (summary_while _ _ _ _) as [[ingredients|reply|?|] cookbook'];
      simpl in *; subst; [by eexists|exfalso|done..].
    destruct Hcases as [(z & -> & ->%list_elem_of_singleton & Habsent)
                       |(a & z & -> & ->%list_elem_of_singleton & Hpath & Habsent)].
    + congruence.
    + apply Hclosed in Hpath as [? ?]. congruence.
  - intros (fuel & s & (r' & ingredients & _ & _ & _ & Hwhile & _)%Summarize_200).
    pose proof (summary_while_cases cookbook fuel [name] (OMap.set name 1%Z OMap.empty))
      as Hcases.
    rewrite Hwhile in Hcases. simpl in Hcases.
    intros z Hpath. apply (Hcases name z); [by left|by apply tc_rtc].
Qed.

Lemma Summarize_succeeds_iff_closed_witness :
  shared_catalog !! "" = None ∧ acyclic shared_catalog ∧
  shared_catalog !! "R" = Some recipe_R ∧
  ((∀ z, tc (requires shared_catalog) "R" z → is_Some (shared_catalog !! z)) ↔
   (∃ fuel s, Summarize fuel "R" shared_catalog = (Responded (Status200Json s), shared_catalog))).
Proof.
  split; [by vm_compute|].
  split; [apply reachable_is_acyclic, reachable_shared_catalog|].
  split; [by vm_compute|].
  apply (Summarize_succeeds_iff_closed shared_catalog "R"
           (Recipe "R" [RequiredItem "S" 3; RequiredItem "A" 2]));
    [by vm_compute|apply reachable_is_acyclic, reachable_shared_catalog|by vm_compute].
Defined.

Section omap_delete.
Context {V : Type}.
Implicit Types (m : OMap.t V) (k : string) (v : V).

Lemma omap_keys_delete k m j :
  j ∈ OMap.keys (OMap.delete k m) ↔ j ≠ k ∧ j ∈ OMap.keys m.
Proof.
  unfold OMap.keys. induction m as [|[k' v'] m IH]; simpl.
  - rewrite elem_of_nil. naive_solver.
  - case_bool_decide; simpl; rewrite ?elem_of_cons, IH; naive_solver.
Qed.

Lemma omap_NoDup_delete k m : NoDup (OMap.keys m) → NoDup (OMap.keys (OMap.delete k m)).
Proof.
  unfold OMap.keys. induction m as [|[k' v'] m IH]; simpl; [done|].
  intros [Hk' Hm]%NoDup_cons. case_bool_decide; simpl; [auto|].
  apply NoDup_cons. split; [|auto].
  intros [_ ?]%(omap_keys_delete k m k'). done.
Qed.




End omap_delete.

Section summary_keys.
Context (cookbook : Cookbook).

Lemma summary_for_keys recipeName items recipes ingredients recipes' ingredients' cookbook' :
  summary_for recipeName items recipes ingredients cookbook
    = (Normal (recipes', ingredients'), cookbook') →
  (NoDup (OMap.keys ingredients) → NoDup (OMap.keys ingredients')) ∧
  (∀ k, k ∈ OMap.keys ingredients' ↔
        k ∈ OMap.keys ingredients ∨ k ∈ item_name <$> items).
Proof.
  revert recipes ingredients.
  induction items as [|it items IH]; intros recipes ingredients.
  - intros [= <- <- <-]. split; [done|]. intros k. rewrite fmap_nil, elem_of_nil. naive_solver.
  - intros Hrun. cbn [summary_for] in Hrun. unfold andThen at 1 in Hrun. cbn in Hrun.
    case_bool_decide as Hit; cbn in Hrun; [|done].
    apply IH in Hrun as [Hnodup Hkeys]. split.
    + intros Hingredients. by apply Hnodup, omap_NoDup_set.
    + intros k. rewrite Hkeys, omap_keys_set, fmap_cons, elem_of_cons. naive_solver.
Qed.

(** The ingredients among the keys of [ingredients], after the loop of
    lines 189-221: those it started with and those that a name of the
    stack transitively requires. *)
Lemma summary_while_keys fuel recipes ingredients ingredients' cookbook' :
  summary_while fuel recipes ingredients cookbook = (Normal ingredients', cookbook') →
  (NoDup (OMap.keys ingredients) → NoDup (OMap.keys ingredients')) ∧
  (∀ z, is_ingredient cookbook z →
        z ∈ OMap.keys ingredients' ↔
        z ∈ OMap.keys ingredients ∨ ∃ a, a ∈ recipes ∧ tc (requires cookbook) a z).
Proof.
  revert recipes ingredients.
  induction fuel as [|fuel IH]; intros recipes ingredients; [done|].
  cbn [summary_while].
  destruct recipes as [|recipeName recipes'].
  { intros [= <- <-]. split; [done|]. intros z _. split; [auto|].
    intros [?|(a & ?%elem_of_nil & _)]; done. }
  unfold andThen, cookbook_get.
  destruct (cookbook !! recipeName) as [[r|i]|] eqn:Hrecipe; cbn; [| |done].
  - destruct (summary_for_cases cookbook recipeName (requiredItems r) recipes' ingredients)
      as [(? & _ & _ & Heq)|(ingredients1 & _ & Heq)]; rewrite Heq; cbn; [done|].
    apply summary_for_keys in Heq as [Hnodup1 Hkeys1].
    intros [Hnodup Hkeys]%IH. split.
    { intros Hingredients. by apply Hnodup, omap_NoDup_delete, Hnodup1. }
    intros z Hz. rewrite (Hkeys z Hz), omap_keys_delete, Hkeys1.
    assert (z ≠ recipeName) as Hne by (intros ->; destruct Hz; congruence).
    split.
    + intros [[_ [?|Hin]]|(a & Ha & Hpath)]; [by left| |].
      * right. exists recipeName. split; [by left|]. apply tc_once. by exists r.
      * right. apply elem_of_app in Ha as [Ha|Ha].
        -- rewrite elem_of_reverse in Ha. exists recipeName. split; [by left|].
           eapply tc_l; [|done]. by exists r.
        -- exists a. split; [by right|done].
    + intros [?|(a & [->|Ha]%elem_of_cons & Hpath)]; [by left; auto| |].
      * apply tc_first_step in Hpath as (q & (r' & Hr' & Hq) & Hrest). simplify_eq.
        apply (proj1 (rtc_tc _ _)) in Hrest as [->|Hrest]; [by left; auto|].
        right. exists q. split; [|done]. apply elem_of_app. left.
        by apply elem_of_reverse.
      * right. exists a. split; [|done]. apply elem_of_app. by right.
  - intros [Hnodup Hkeys]%IH. split; [done|].
    intros z Hz. rewrite (Hkeys z Hz). split.
    + intros [?|(a & Ha & Hpath)]; [by left|]. right. exists a. split; [by right|done].
    + intros [?|(a & [->|Ha]%elem_of_cons & Hpath)]; [by left| |].
      * apply tc_first_step in Hpath as (? & (? & ? & _) & _). congruence.
      * right. by exists a.
Qed.
End summary_keys.

Lemma summary_tally_reported cookbook entries total summaryIngredients :
  summary_tally cookbook entries total summaryIngredients =
    ((total + total_time cookbook (reported cookbook entries))%Z,
     summaryIngredients ++ reported cookbook entries).
Proof.
  revert total summaryIngredients.
  induction entries as [|[k q] entries IH]; intros total acc; simpl.
  - by rewrite Z.add_0_r, app_nil_r.
  - unfold reported. simpl. fold (reported cookbook entries).
    destruct (cookbook !! k) as [[r|i]|] eqn:Hk; rewrite IH; simpl; try done.
    unfold cook_time_of. simpl. rewrite Hk, <-app_assoc. simpl. f_equal. lia.
Qed.

Lemma reported_names cookbook entries n :
  n ∈ item_name <$> reported cookbook entries ↔
  n ∈ OMap.keys entries ∧ is_ingredient cookbook n.
Proof.
  unfold reported, OMap.keys, is_ingredient.
  induction entries as [|[k q] entries IH]; simpl.
  - rewrite elem_of_nil. naive_solver.
  - destruct (cookbook !! k) as [[r|i]|] eqn:Hk; simpl;
      rewrite ?elem_of_cons, IH; naive_solver.
Qed.

Lemma reported_NoDup cookbook entries :
  NoDup (OMap.keys entries) → NoDup (item_name <$> reported cookbook entries).
Proof.
  unfold OMap.keys. induction entries as [|[k q] entries IH]; simpl; [constructor|].
  intros [Hk Hentries]%NoDup_cons. unfold reported. simpl. fold (reported cookbook entries).
  destruct (cookbook !! k) as [[r|i]|]; simpl; auto.
  apply NoDup_cons. split; [|auto].
  intros [? _]%reported_names. done.
Qed.

(** X15. The summary of a recipe lists exactly the ingredients that the
    recipe transitively requires, each of them once; no recipe and no
    other name appears in it. *)
Theorem Summarize_lists_the_required_ingredients :
  ∀ fuel name cookbook s cookbook',
    Summarize fuel name cookbook = (Responded (Status200Json s), cookbook') →
    NoDup (item_name <$> summary_ingredients s) ∧
    ∀ n, n ∈ item_name <$> summary_ingredients s ↔
         tc (requires cookbook) name n ∧ is_ingredient cookbook n.
Proof.
  intros fuel name cookbook s cookbook'
    (r & ingredients & Hname & Hr & -> & Hwhile & ->)%Summarize_200.
  rewrite summary_tally_reported. simpl.
  apply summary_while_keys in Hwhile as [Hnodup Hkeys]. split.
  - apply reported_NoDup, Hnodup. repeat constructor. by intros ?%elem_of_nil.
  - intros n. rewrite reported_names. split.
    + intros [Hn Hingredient]. split; [|done].
      apply (Hkeys n Hingredient) in Hn
        as [->%list_elem_of_singleton|(a & ->%list_elem_of_singleton & Hpath)]; [|done].
      simpl in Hingredient. destruct Hingredient. congruence.
    + intros [Hpath Hingredient]. split; [|done].
      apply (Hkeys n Hingredient). right. exists name. split; [by left|done].
Qed.


Lemma Summarize_lists_the_required_ingredients_witness :
  Summarize 7 "R" shared_catalog =
    (Responded (Status200Json (Summary "R" 60 [RequiredItem "L" 6])), shared_catalog) ∧
  NoDup ["L"] ∧
  ∀ n, n ∈ ["L"] ↔ tc (requires shared_catalog) "R" n ∧ is_ingredient shared_catalog n.
Proof.
  assert (Summarize 7 "R" shared_catalog =
            (Responded (Status200Json (Summary "R" 60 [RequiredItem "L" 6])),
             shared_catalog)) as Hrun by (by vm_compute).
  split; [done|].
  apply (Summarize_lists_the_required_ingredients 7 "R" shared_catalog _ _ Hrun).
Defined.


(** ** Quantities and cook times of a summary are not negative *)

Section summary_positive.
Context (cookbook : Cookbook).
Hypothesis quantities_positive :
  ∀ k r, cookbook !! k = Some (IsRecipe r) →
         Forall (λ it, 0 < quantity it)%Z (requiredItems r).



End summary_positive.





(** ** The summary of a recipe made of ingredients *)



Section flat.
Context (cookbook : Cookbook).





End flat.



(** ** The handlers together *)



(** ** Summaries survive later insertions *)

Lemma AddEntry_subseteq fuel data cookbook : cookbook ⊆ (AddEntry fuel data cookbook).2.
Proof.
  pose proof (atomic_AddEntry fuel data cookbook) as [H200|Hsame]; [|by rewrite Hsame].
  destruct (AddEntry fuel data cookbook) as [c cookbook'] eqn:Hrun. simpl in *. subst c.
  apply AddEntry_200 in Hrun as (e & -> & _ & Hfresh & _). by apply insert_subseteq.
Qed.

Section growth.
Context (cookbook cookbook' : Cookbook).
Hypothesis grows : cookbook ⊆ cookbook'.

Lemma has_grows k : is_Some (cookbook !! k) → is_Some (cookbook' !! k).
Proof using grows. intros [e He]. exists e. by eapply lookup_weaken. Qed.

Lemma summary_for_grows recipeName items recipes ingredients pushed :
  summary_for recipeName items recipes ingredients cookbook = (Normal pushed, cookbook) →
  summary_for recipeName items recipes ingredients cookbook' = (Normal pushed, cookbook').
Proof using grows.
  revert recipes ingredients.
  induction items as [|it items IH]; intros recipes ingredients.
  - by intros [= <-].
  - intros Hrun. cbn [summary_for] in Hrun |- *.
    unfold andThen at 1 in Hrun. unfold andThen at 1. cbn in Hrun |- *.
    case_bool_decide as Hit; cbn in Hrun; [|done].
    rewrite bool_decide_true by (by apply has_grows). cbn. by apply IH.
Qed.

Lemma summary_while_grows fuel recipes ingredients ingredients' :
  summary_while fuel recipes ingredients cookbook = (Normal ingredients', cookbook) →
  summary_while fuel recipes ingredients cookbook' = (Normal ingredients', cookbook').
Proof using grows.
  revert recipes ingredients.
  induction fuel as [|fuel IH]; intros recipes ingredients; [done|].
  cbn [summary_while].
  destruct recipes as [|recipeName recipes']; [by intros [= <-]|].
  unfold andThen, cookbook_get.
  destruct (cookbook !! recipeName) as [e|] eqn:Hrecipe; cbn; [|done].
  rewrite (lookup_weaken _ _ _ _ Hrecipe grows).
  destruct e as [r|i]; [|apply IH].
  destruct (summary_for_cases cookbook recipeName (requiredItems r) recipes' ingredients)
    as [(? & _ & _ & Hfor)|(ingredients1 & _ & Hfor)]; rewrite Hfor; cbn; [done|].
  rewrite (summary_for_grows _ _ _ _ _ Hfor). cbn. apply IH.
Qed.

Lemma summary_tally_grows entries total summaryIngredients :
  (∀ k, k ∈ OMap.keys entries → is_Some (cookbook !! k)) →
  summary_tally cookbook' entries total summaryIngredients =
  summary_tally cookbook entries total summaryIngredients.
Proof using grows.
  unfold OMap.keys. revert total summaryIngredients.
  induction entries as [|[k q] entries IH]; intros total acc Hpresent; simpl; [done|].
  destruct (Hpresent k) as [e He]; [by left|].
  rewrite He, (lookup_weaken _ _ _ _ He grows).
  destruct e; apply IH; intros k' ?; apply Hpresent; by right.
Qed.
End growth.

Lemma summary_while_keys_present cookbook fuel recipes ingredients ingredients' cookbook' :
  (∀ k, k ∈ OMap.keys ingredients → is_Some (cookbook !! k)) →
  summary_while fuel recipes ingredients cookbook = (Normal ingredients', cookbook') →
  ∀ k, k ∈ OMap.keys ingredients' → is_Some (cookbook !! k).
Proof.
  revert recipes ingredients.
  induction fuel as [|fuel IH]; intros recipes ingredients Hpresent; [done|].
  cbn [summary_while].
  destruct recipes as [|recipeName recipes']; [by intros [= <- <-]|].
  unfold andThen, cookbook_get.
  destruct (cookbook !! recipeName) as [[r|i]|] eqn:Hrecipe; cbn; [|by apply IH|done].
  destruct (summary_for_cases cookbook recipeName (requiredItems r) recipes' ingredients)
    as [(? & _ & _ & Hfor)|(ingredients1 & Hitems & Hfor)]; rewrite Hfor; cbn; [done|].
  apply summary_for_keys in Hfor as [_ Hkeys].
  apply IH. intros k [_ [?|?]%Hkeys]%omap_keys_delete; auto.
Qed.

(** X20. A summary, once given, stays: after any further [POST /entry],
    whatever its body and its outcome, [GET /summary] of the same name
    answers with the same summary. *)
Theorem summaries_survive_insertions :
  ∀ fuel name cookbook s cookbook0,
    Summarize fuel name cookbook = (Responded (Status200Json s), cookbook0) →
    ∀ fuel' data,
      Summarize fuel name (AddEntry fuel' data cookbook).2 =
        (Responded (Status200Json s), (AddEntry fuel' data cookbook).2).
Proof.
  intros fuel name cookbook s cookbook0
    (r & ingredients & Hname & Hr & -> & Hwhile & ->)%Summarize_200 fuel' data.
  pose proof (AddEntry_subseteq fuel' data cookbook) as Hgrows.
  set (cookbook' := (AddEntry fuel' data cookbook).2) in *.
  rewrite (Summarize_recipe _ _ r); [|done|by eapply lookup_weaken].
  rewrite (summary_while_grows cookbook cookbook' Hgrows _ _ _ _ Hwhile). cbn.
  rewrite (summary_tally_grows cookbook cookbook' Hgrows); [done|].
  eapply summary_while_keys_present; [|done].
  intros k ->%list_elem_of_singleton. by eexists.
Qed.

Lemma summaries_survive_insertions_witness :
  Summarize 7 "D" diamond_catalog =
    (Responded (Status200Json (Summary "D" 50 [RequiredItem "L" 5])), diamond_catalog) ∧
  Summarize 7 "D" (AddEntry 5 (body recipe_X) diamond_catalog).2 =
    (Responded (Status200Json (Summary "D" 50 [RequiredItem "L" 5])),
     (AddEntry 5 (body recipe_X) diamond_catalog).2).
Proof.
  assert (Summarize 7 "D" diamond_catalog =
            (Responded (Status200Json (Summary "D" 50 [RequiredItem "L" 5])),
             diamond_catalog)) as Hrun by (by vm_compute).
  split; [done|].
  apply (summaries_survive_insertions 7 "D" diamond_catalog _ _ Hrun 5 (body recipe_X)).
Defined.

(** ** The summary of a recipe without shared sub-recipes *)









Section depth.
Context (cookbook : Cookbook).


Lemma within_mono d n : within d cookbook n = true → within (S d) cookbook n = true.
Proof.
  revert n. induction d as [|d IH]; intros n; simpl.
  - by destruct (cookbook !! n) as [[r|i]|].
  - destruct (cookbook !! n) as [[r|i]|]; [|done..].
    rewrite !forallb_forall. intros Hchildren it Hit.
    apply (IH (item_name it)). by apply Hchildren.
Qed.

Lemma within_le d d' n : d ≤ d' → within d cookbook n = true → within d' cookbook n = true.
Proof. induction 1; [done|]. intros ?. by apply within_mono, IHle. Qed.





End depth.







Lemma quantity_sum_cons k it items :
  quantity_sum k (it :: items) =
    ((if bool_decide (item_name it = k) then quantity it else 0) + quantity_sum k items)%Z.
Proof. done. Qed.

Lemma quantity_sum_positive k items :
  Forall (λ it, 0 < quantity it)%Z items →
  k ∈ item_name <$> items → (0 < quantity_sum k items)%Z.
Proof.
  induction 1 as [|it items Hit Hitems IH]; [by intros ?%elem_of_nil|].
  rewrite quantity_sum_cons, fmap_cons.
  assert (0 ≤ quantity_sum k items)%Z as Hrest.
  { clear -Hitems. induction Hitems as [|it items Hit _ IH]; [done|].
    rewrite quantity_sum_cons. case_bool_decide; lia. }
  intros [->|Hk]%elem_of_cons.
  - rewrite bool_decide_true by done. lia.
  - specialize (IH Hk). case_bool_decide; lia.
Qed.


Section once.
Context (cookbook : Cookbook) (block : string → list string).
Hypothesis block_head : ∀ c, is_recipe_name cookbook c = true → c ∈ block c.

End once.


Section unshared.
Context (cookbook : Cookbook) (z : string).
Hypothesis positive :
  ∀ n r, cookbook !! n = Some (IsRecipe r) →
         Forall (λ it, 0 < quantity it)%Z (requiredItems r).
Hypothesis z_ingredient : is_ingredient cookbook z.


Lemma sub_recipes_are_recipes d n c :
  c ∈ sub_recipes d cookbook n → is_recipe_name cookbook c = true.
Proof.
  revert n. induction d as [|d IH]; intros n; simpl; [by intros ?%elem_of_nil|].
  destruct (cookbook !! n) as [[r|i]|]; try by intros ?%elem_of_nil.
  intros (it & Hc & Hit)%list_elem_of_bind.
  destruct (is_recipe_name cookbook (item_name it)) eqn:Hrecipe;
    [|by apply elem_of_nil in Hc].
  apply elem_of_cons in Hc as [->|Hc]; [done|by eauto].
Qed.



Lemma block_are_recipes d n c : c ∈ block d cookbook n → is_recipe_name cookbook c = true.
Proof.
  unfold block. destruct (is_recipe_name cookbook n) eqn:Hn; [|by intros ?%elem_of_nil].
  intros [->|Hc]%elem_of_cons; [done|]. by eapply sub_recipes_are_recipes.
Qed.


End unshared.



